(** * The relayer status aggregator ([web/functions/api/status.ts])

    A shallow embedding of the Pages Function [onRequest] and of the
    helper [fetchUsdPrices], with the properties of the snapshot it
    produces.

    - JavaScript numbers are IEEE 754 binary64 values: Rocq's primitive
      [float], with [PrimFloat.add], [PrimFloat.mul] and the comparisons.
    - JSON values are an inductive type; an object is a finite map from
      its keys to its values.  The order of the keys is not modelled.  A
      property of a parsed value is an own property.  Where the function
      meets [Object.prototype] on values of its own the model follows it:
      an assignment to [__proto__] in the price table stores nothing, and
      the coercion of an object whose own [toString] hides the inherited
      one throws.  The lookup of a symbol in [COINGECKO_ID_BY_SYMBOL] is
      that of the own keys of the table: the statements that depend on
      it ask for a registry of which no symbol names a member of
      [Object.prototype].
    - A throw inside the [try] block of a probe, also one after the
      payload was parsed, is caught and stored as a failure.  What an
      engine does when it runs out of room (a call with more arguments
      than its stack holds, a recursion too deep) is a [RangeError] at a
      place that depends on the engine; it is not modelled, and the
      statements about a success are about outcomes whose [ok] is true.
    - [results] is a JavaScript array: a list of optional slots, where an
      assignment past the end extends the array with holes.
    - The pool of [async] workers is a state machine.  A worker runs
      without interruption from one [await] to the next; which suspended
      worker is resumed next is chosen by a schedule, so that every
      completion order of the probes is covered.
    - The snapshot is the object handed to [JSON.stringify]; the text it
      is turned into and the headers of the response are not modelled. *)

From Stdlib Require Import Floats DecimalString.
From stdpp Require Import gmap strings list fin_maps.

Local Open Scope string_scope.
Set Warnings "-register-all".

(* ===================================================================== *)
(** * JavaScript numbers                                                  *)
(* ===================================================================== *)

Module Num.

Definition add : float → float → float := PrimFloat.add.
Definition mul : float → float → float := PrimFloat.mul.
Definition ltb : float → float → bool := PrimFloat.ltb.
Definition leb : float → float → bool := PrimFloat.leb.
Definition zero : float := PrimFloat.zero.
Definition is_nan : float → bool := PrimFloat.is_nan.

(** [x] is the value [-0]. *)
Definition is_neg_zero (x : float) : bool :=
  match PrimFloat.classify x with NZero => true | _ => false end.

(** [x] is the value [+0]. *)
Definition is_pos_zero (x : float) : bool :=
  match PrimFloat.classify x with PZero => true | _ => false end.

(** [Math.min(...xs)], as ECMA-262 gives it: the lowest value seen so far
    starts at [+Infinity]; a NaN argument makes the result NaN; [-0] is
    lower than [+0].  The limit an engine puts on the number of arguments
    of a call is not modelled. *)
Fixpoint min_from (lowest : float) (xs : list float) : float :=
  match xs with
  | [] => lowest
  | x :: rest =>
      if is_nan x then PrimFloat.nan
      else if (is_neg_zero x && is_pos_zero lowest) || ltb x lowest
           then min_from x rest
           else min_from lowest rest
  end.

Definition Math_min (xs : list float) : float :=
  min_from PrimFloat.infinity xs.

End Num.

(* ===================================================================== *)
(** * JSON values and JavaScript objects                                  *)
(* ===================================================================== *)

(** The result of [JSON.parse], and the objects the function builds from
    it.  Strings are sequences of characters; a character stands for one
    code unit. *)
Inductive json : Type :=
  | JNull
  | JBool (b : bool)
  | JNum (x : float)
  | JStr (s : string)
  | JArr (items : list json)
  | JObj (fields : gmap string json).

(** What [throw] raised and [catch (e)] receives: an [Error] object (with
    its [name] and [message]) or any other value, of which only its
    rendering [String(e)] matters here. *)
Inductive thrown : Type :=
  | JsError (name message : string)
  | JsOther (rendering : string).

(** [e?.message ?? String(e)] *)
Definition describe (e : thrown) : string :=
  match e with
  | JsError _ message => message
  | JsOther rendering => rendering
  end.

(** The decimal digits of a non-negative integer: what a template literal
    and a property key make of it. *)
Definition decimal (n : N) : string :=
  NilEmpty.string_of_uint (N.to_uint n).

(** An array index as a property key. *)
Definition index_key (i : nat) : string := decimal (N.of_nat i).

(** A string is truthy when it is not empty. *)
Definition truthy (s : string) : bool :=
  match s with EmptyString => false | String _ _ => true end.

(** The own enumerable properties of the elements of a list, keyed by
    their positions. *)
Definition indexed {A} (l : list A) : gmap string A :=
  list_to_map (imap (λ i v, (index_key i, v)) l).

(** The characters of a string, each as a string of length one. *)
Fixpoint chars (s : string) : list string :=
  match s with
  | EmptyString => []
  | String c rest => String c EmptyString :: chars rest
  end.

(** The own enumerable properties that object spread [{...v}] and
    [Object.entries(v)] copy out of a value: the fields of an object, the
    elements of an array, the characters of a string, and nothing for
    [null], a boolean or a number. *)
Definition own_props (v : json) : gmap string json :=
  match v with
  | JObj fields => fields
  | JArr items => indexed items
  | JStr s => indexed (JStr <$> chars s)
  | JNull | JBool _ | JNum _ => ∅
  end.

(** [v?.key] for a key that no prototype defines and that is neither an
    index nor [length] ([senders], [etherBalance], [usd]): the field of an
    object, [undefined] for anything else. *)
Definition get_prop (v : json) (key : string) : option json :=
  match v with
  | JObj fields => fields !! key
  | _ => None
  end.

(** [typeof v === 'number' ? v : undefined] on an optional value. *)
Definition as_number (v : option json) : option float :=
  match v with
  | Some (JNum x) => Some x
  | _ => None
  end.

(** [arr[idx] = v] on a JavaScript array: inside the array the slot is
    overwritten; past its end the array grows, the slots in between being
    holes. *)
Definition array_set {A} (arr : list (option A)) (idx : nat) (v : A)
  : list (option A) :=
  if decide (idx < length arr) then <[idx := Some v]> arr
  else arr ++ replicate (idx - length arr) None ++ [Some v].

(* ===================================================================== *)
(** * The outside world                                                   *)
(* ===================================================================== *)

(** A [Response]: its status and what [res.json()] gives, a parsed value
    or the error it throws. *)
Module Response.
Record t := mk { status : N; json : thrown + json }.

(** [res.ok]: the status is in the range 200-299. *)
Definition ok (res : t) : bool :=
  ((200 <=? status res) && (status res <=? 299))%N.
End Response.

(** What [await fetch(...)] does: it throws (no response was received) or
    it gives a response. *)
Inductive fetched : Type :=
  | Rejected (e : thrown)
  | Resolved (res : Response.t).

(** Modelled from the spec: the [Network] descriptor of
    [@0xsequence/wallet-primitives], whose declaration is not part of the
    sources: a unique short name, a numeric chain identifier, a display
    title, a class, and a native-currency descriptor with symbol, name and
    decimal precision.  The function reads [nativeCurrency] with [?.], so
    the descriptor is optional here. *)
Module NativeCurrency.
Record t := mk { symbol : string; name : string; decimals : N }.
End NativeCurrency.

Module Network.
Inductive class := mainnet | testnet.
Record t := mk {
  name : string;
  chainId : N;
  title : string;
  type : class;
  nativeCurrency : option NativeCurrency.t
}.
End Network.

(** The request [fetchUsdPrices] sends to the price feed: the two query
    parameters and the headers. *)
Module PriceRequest.
Record t := mk {
  ids : string;
  vs_currencies : string;
  accept : string;
  x_cg_pro_api_key : option string
}.
End PriceRequest.

(** Everything [onRequest] reads from outside: the registry
    ([Network.ALL]), the environment's [COINGECKO_API_KEY], the answer of
    the price feed to a request, the answer of the relayer to the probe
    of the network at an index (sent to a URL), the clock, and the
    number JavaScript's [ToNumber] gives for a value that is not a
    number, when the coercion returns (whether it returns is
    [coercible], below). *)
Module Env.
Record t := mk {
  ALL : list Network.t;
  COINGECKO_API_KEY : option string;
  coingecko : PriceRequest.t → fetched;
  relayer : nat → string → fetched;
  now : string;
  ToNumber : json → float
}.
End Env.

(* ===================================================================== *)
(** * Price lookup                                                        *)
(* ===================================================================== *)

Definition COINGECKO_ID_BY_SYMBOL : gmap string string :=
  list_to_map [
    ("ETH", "ethereum");
    ("sETH", "ethereum");
    ("OP", "optimism");
    ("POL", "polygon-ecosystem-token");
    ("MATIC", "matic-network");
    ("BNB", "binancecoin");
    ("AVAX", "avalanche-2");
    ("XDAI", "gnosis");
    ("GLMR", "moonbeam");
    ("MOVR", "moonriver");
    ("APE", "apecoin");
    ("XAI", "xai");
    ("IMX", "immutable-x");
    ("XTZ", "tezos");
    ("OAS", "oasys");
    ("USDC", "usd-coin")
  ].

(** [typeof v?.usd === 'number'], and then [v.usd]. *)
Definition usd_quote (v : json) : option float :=
  as_number (get_prop v "usd").

(** The request for the prices of [ids]. *)
Definition price_request (ids : list string) (apiKey : option string)
  : PriceRequest.t :=
  {| PriceRequest.ids := String.concat "," ids;
     PriceRequest.vs_currencies := "usd";
     PriceRequest.accept := "application/json";
     PriceRequest.x_cg_pro_api_key :=
       match apiKey with
       | Some key => if truthy key then Some key else None
       | None => None
       end |}.

(** [fetchUsdPrices(ids, apiKey)]: the price table, or what it throws. *)
Definition fetchUsdPrices (env : Env.t) (ids : list string)
    (apiKey : option string) : thrown + gmap string float :=
  match ids with
  | [] => inr ∅
  | _ :: _ =>
      match Env.coingecko env (price_request ids apiKey) with
      | Rejected e => inl e
      | Resolved res =>
          if negb (Response.ok res)
          then inl (JsError "Error"
                      ("CoinGecko HTTP " +:+ decimal (Response.status res)))
          else
            match Response.json res with
            | inl e => inl e
            | inr JNull =>
                (* Object.entries(null) *)
                inl (JsError "TypeError"
                       "Cannot convert undefined or null to object")
            | inr json =>
                (* out["__proto__"] = v.usd calls the setter of
                   Object.prototype, which ignores a number *)
                inr (omap usd_quote (delete "__proto__" (own_props json)))
            end
      end
  end.

(* ===================================================================== *)
(** * The objects of the snapshot                                         *)
(* ===================================================================== *)

Module NativeToken.
Record t := mk {
  symbol : option string;
  name : option string;
  coinGeckoId : option string;
  usdPrice : option float
}.
End NativeToken.

Module Summary.
Record t := mk {
  senderCount : nat;
  zeroCount : nat;
  totalNative : float;
  totalUsd : option float;
  minNative : option float;
  minUsd : option float
}.
End Summary.

(** One element of [results].  A field that the object literal does not
    have is [None]; so is a field whose value is [null] or [undefined]. *)
Module Outcome.
Record t := mk {
  network : Network.t;
  url : string;
  ok : bool;
  status : N;
  error : option string;
  nativeToken : NativeToken.t;
  data : option json;
  summary : option Summary.t
}.
End Outcome.

Module Pricing.
Record t := mk {
  apiKeyPresent : bool;
  idsRequested : list string;
  idsPriced : list string;
  error : option string
}.
End Pricing.

(** The object given to [JSON.stringify]; a hole of [results] is [None]. *)
Module Snapshot.
Record t := mk {
  generatedAt : string;
  pricing : Pricing.t;
  count : nat;
  results : list (option Outcome.t)
}.
End Snapshot.

(* ===================================================================== *)
(** * Enrichment of one payload                                           *)
(* ===================================================================== *)

(** [typeof s?.etherBalance === 'number' ? s.etherBalance : 0] *)
Definition bal (s : json) : float :=
  default Num.zero (as_number (get_prop s "etherBalance")).

(** The callback of [senders.map]: [{ ...s, usdValue: ... }]. *)
Definition enrich (usdPrice : option float) (s : json) : json :=
  JObj (<["usdValue" :=
            match usdPrice with
            | Some price => JNum (Num.mul (bal s) price)
            | None => JNull
            end]> (own_props s)).

(** [Array.isArray(jsonRaw?.senders) ? jsonRaw.senders : []] *)
Definition senders_of (jsonRaw : json) : list json :=
  match get_prop jsonRaw "senders" with
  | Some (JArr items) => items
  | _ => []
  end.

(** Whether the coercion of a parsed value to a primitive returns.  An
    object is asked for [valueOf] and [toString]: the inherited
    [valueOf] gives the object back, which is no primitive; the inherited
    [toString] gives a string; an own [toString] is a parsed value, which
    cannot be called, and hides the inherited one, so that nothing is
    left and the coercion throws.  An array is turned into a string by
    [join], which coerces each element that is not [null]. *)
Fixpoint coercible (v : json) : bool :=
  match v with
  | JObj fields =>
      match fields !! "toString" with Some _ => false | None => true end
  | JArr items => forallb coercible items
  | JNull | JBool _ | JNum _ | JStr _ => true
  end.

(** [(v ?? 0) <= 0] for [v = s.etherBalance]: the comparison, or the
    [TypeError] of the coercion. *)
Definition at_most_zero (env : Env.t) (v : option json) : thrown + bool :=
  match v with
  | None | Some JNull => inr (Num.leb Num.zero Num.zero)
  | Some (JNum x) => inr (Num.leb x Num.zero)
  | Some other =>
      if coercible other
      then inr (Num.leb (Env.ToNumber env other) Num.zero)
      else inl (JsError "TypeError" "Cannot convert object to primitive value")
  end.

(** [enrichedSenders.reduce((acc, s) => acc + ((s.etherBalance ?? 0) <= 0
    ? 1 : 0), 0)], from the accumulator [acc] on: the count, or what the
    first comparison that throws has thrown. *)
Fixpoint count_zero (env : Env.t) (acc : nat) (enrichedSenders : list json)
  : thrown + nat :=
  match enrichedSenders with
  | [] => inr acc
  | s :: rest =>
      match at_most_zero env (get_prop s "etherBalance") with
      | inl e => inl e
      | inr below => count_zero env (acc + (if below then 1 else 0))%nat rest
      end
  end.

(** [totalNative], [totalUsd], [minNative], [minUsd] and the [summary]
    object, for a [zeroCount] that was computed. *)
Definition summarize (usdPrice : option float)
    (enrichedSenders : list json) (zeroCount : nat) : Summary.t :=
  let totalNative :=
    foldl (λ acc s, Num.add acc (bal s)) Num.zero enrichedSenders in
  let totalUsd :=
    match usdPrice with
    | Some price => Some (Num.mul totalNative price)
    | None => None
    end in
  let minNative :=
    match enrichedSenders with
    | [] => None
    | _ :: _ => Some (Num.Math_min (bal <$> enrichedSenders))
    end in
  let minUsd :=
    match usdPrice, minNative with
    | Some price, Some least => Some (Num.mul least price)
    | _, _ => None
    end in
  {| Summary.senderCount := length enrichedSenders;
     Summary.zeroCount := zeroCount;
     Summary.totalNative := totalNative;
     Summary.totalUsd := totalUsd;
     Summary.minNative := minNative;
     Summary.minUsd := minUsd |}.

(** [{ ...(typeof jsonRaw === 'object' && jsonRaw ? jsonRaw : {}),
       senders: enrichedSenders }] *)
Definition spreadable (jsonRaw : json) : gmap string json :=
  match jsonRaw with
  | JObj _ | JArr _ => own_props jsonRaw
  | JNull | JBool _ | JNum _ | JStr _ => ∅
  end.

Definition enriched_payload (jsonRaw : json) (enrichedSenders : list json)
  : json :=
  JObj (<["senders" := JArr enrichedSenders]> (spreadable jsonRaw)).

(* ===================================================================== *)
(** * One probe                                                           *)
(* ===================================================================== *)

(** The locals of one iteration of the worker's loop, alive across its
    [await]s. *)
Module Frame.
Record t := mk {
  idx : nat;
  n : Network.t;
  url : string;
  coinGeckoId : option string;
  usdPrice : option float
}.
End Frame.

Definition nativeToken_of (f : Frame.t) : NativeToken.t :=
  {| NativeToken.symbol :=
       NativeCurrency.symbol <$> Network.nativeCurrency (Frame.n f);
     NativeToken.name :=
       NativeCurrency.name <$> Network.nativeCurrency (Frame.n f);
     NativeToken.coinGeckoId := Frame.coinGeckoId f;
     NativeToken.usdPrice := Frame.usdPrice f |}.

(** The object stored when [!res.ok]. *)
Definition http_failure (f : Frame.t) (res : Response.t) : Outcome.t :=
  {| Outcome.network := Frame.n f;
     Outcome.url := Frame.url f;
     Outcome.ok := false;
     Outcome.status := Response.status res;
     Outcome.error := Some ("HTTP " +:+ decimal (Response.status res));
     Outcome.nativeToken := nativeToken_of f;
     Outcome.data := None;
     Outcome.summary := None |}.

(** The object stored by the [catch] clause. *)
Definition caught_failure (f : Frame.t) (e : thrown) : Outcome.t :=
  {| Outcome.network := Frame.n f;
     Outcome.url := Frame.url f;
     Outcome.ok := false;
     Outcome.status := 0;
     Outcome.error := Some (describe e);
     Outcome.nativeToken := nativeToken_of f;
     Outcome.data := None;
     Outcome.summary := None |}.

(** The object stored at the end of the [try] block, for a [zeroCount]
    that was computed. *)
Definition success (f : Frame.t) (res : Response.t) (jsonRaw : json)
    (zeroCount : nat) : Outcome.t :=
  let senders := senders_of jsonRaw in
  let enrichedSenders := enrich (Frame.usdPrice f) <$> senders in
  {| Outcome.network := Frame.n f;
     Outcome.url := Frame.url f;
     Outcome.ok := true;
     Outcome.status := Response.status res;
     Outcome.error := None;
     Outcome.nativeToken := nativeToken_of f;
     Outcome.data := Some (enriched_payload jsonRaw enrichedSenders);
     Outcome.summary :=
       Some (summarize (Frame.usdPrice f) enrichedSenders zeroCount) |}.

(** The [try] block from the parsed payload on, with its [catch]: the
    rollup, and the success that is stored; or, when the rollup throws,
    the failure that is stored. *)
Definition rollup (env : Env.t) (f : Frame.t) (res : Response.t)
    (jsonRaw : json) : Outcome.t :=
  match count_zero env 0
          (enrich (Frame.usdPrice f) <$> senders_of jsonRaw) with
  | inl e => caught_failure f e
  | inr zeroCount => success f res jsonRaw zeroCount
  end.

(* ===================================================================== *)
(** * Resolving the price-feed identifiers                                *)
(* ===================================================================== *)

(** [sym ? COINGECKO_ID_BY_SYMBOL[sym] : undefined], for
    [sym = n.nativeCurrency?.symbol]: the own property of the table.  For
    a symbol that names a member of [Object.prototype] the lookup of the
    function finds that member instead; the statements about the
    identifiers that are requested and the prices that are found leave
    such a registry out ([own_symbols], below). *)
Definition resolve (n : Network.t) : option string :=
  match Network.nativeCurrency n with
  | Some currency =>
      let sym := NativeCurrency.symbol currency in
      if truthy sym then COINGECKO_ID_BY_SYMBOL !! sym else None
  | None => None
  end.

(** [idsNeeded.add(id)] on a [Set], which keeps the order of insertion. *)
Definition Set_add (id : string) (members : list string) : list string :=
  if decide (id ∈ members) then members else members ++ [id].

(** The two variables filled by the loop over the networks. *)
Module Needed.
Record t := mk {
  idsNeeded : list string;
  coinGeckoIdByNetworkName : gmap string (option string)
}.
End Needed.

Definition note_network (acc : Needed.t) (n : Network.t) : Needed.t :=
  let id := resolve n in
  {| Needed.coinGeckoIdByNetworkName :=
       <[Network.name n := id]> (Needed.coinGeckoIdByNetworkName acc);
     Needed.idsNeeded :=
       match id with
       | Some id' =>
           if truthy id' then Set_add id' (Needed.idsNeeded acc)
           else Needed.idsNeeded acc
       | None => Needed.idsNeeded acc
       end |}.

Definition needed (networks : list Network.t) : Needed.t :=
  foldl note_network
        {| Needed.idsNeeded := []; Needed.coinGeckoIdByNetworkName := ∅ |}
        networks.

(* ===================================================================== *)
(** * The pool of workers                                                 *)
(* ===================================================================== *)

Definition concurrency : nat := 12.

(** [`https://${n.name}-relayer.sequence.app/status`] *)
Definition status_url (n : Network.t) : string :=
  "https://" +:+ Network.name n +:+ "-relayer.sequence.app/status".

(** A worker between two turns: suspended at [await fetch(url)],
    suspended at [await res.json()], or returned. *)
Inductive worker : Type :=
  | AwaitFetch (f : Frame.t)
  | AwaitJson (f : Frame.t) (res : Response.t)
  | Returned.

(** The variables the workers share, [i] and [results]; the workers
    themselves; and, for the statements about probes, the list of the
    calls of [fetch] made so far, oldest first. *)
Module Pool.
Record t := mk {
  i : nat;
  results : list (option Outcome.t);
  workers : list worker;
  requests : list (nat * string)
}.
End Pool.

(** [const results: any[] = []] and [let i = 0]: the pool before any
    worker is called. *)
Definition idle : Pool.t :=
  {| Pool.i := 0; Pool.results := []; Pool.workers := [];
     Pool.requests := [] |}.

Section OnRequest.

Variable env : Env.t.

Definition networks : list Network.t := Env.ALL env.
Definition apiKey : option string := Env.COINGECKO_API_KEY env.
Definition idsNeeded : list string := Needed.idsNeeded (needed networks).
Definition coinGeckoIdByNetworkName : gmap string (option string) :=
  Needed.coinGeckoIdByNetworkName (needed networks).

(** The [try]/[catch] around [fetchUsdPrices]: the price table and the
    error message. *)
Definition priced : gmap string float * option string :=
  match fetchUsdPrices env idsNeeded apiKey with
  | inr table => (table, None)
  | inl e => (∅, Some (describe e))
  end.

Definition pricesUsd : gmap string float := priced.1.
Definition pricingError : option string := priced.2.

(** The locals computed when a worker takes the network [n] at [idx]. *)
Definition frame (idx : nat) (n : Network.t) : Frame.t :=
  let coinGeckoId := mjoin (coinGeckoIdByNetworkName !! Network.name n) in
  {| Frame.idx := idx;
     Frame.n := n;
     Frame.url := status_url n;
     Frame.coinGeckoId := coinGeckoId;
     Frame.usdPrice :=
       match coinGeckoId with
       | Some id => if truthy id then pricesUsd !! id else None
       | None => None
       end |}.

(** [results[idx] = outcome] *)
Definition store (f : Frame.t) (outcome : Outcome.t) (p : Pool.t) : Pool.t :=
  {| Pool.i := Pool.i p;
     Pool.results := array_set (Pool.results p) (Frame.idx f) outcome;
     Pool.workers := Pool.workers p;
     Pool.requests := Pool.requests p |}.

(** From the head of [while (i < networks.length)] to the next [await]:
    the worker returns, or takes the index [i], increments [i] and calls
    [fetch]. *)
Definition loop (p : Pool.t) : worker * Pool.t :=
  match networks !! Pool.i p with
  | None => (Returned, p)
  | Some n =>
      let f := frame (Pool.i p) n in
      (AwaitFetch f,
       {| Pool.i := S (Pool.i p);
          Pool.results := Pool.results p;
          Pool.workers := Pool.workers p;
          Pool.requests :=
            Pool.requests p ++ [(Frame.idx f, Frame.url f)] |})
  end.

(** One turn of a suspended worker: from the [await] that is settled to
    the next one. *)
Definition turn (w : worker) (p : Pool.t) : option (worker * Pool.t) :=
  match w with
  | Returned => None
  | AwaitFetch f =>
      match Env.relayer env (Frame.idx f) (Frame.url f) with
      | Rejected e => Some (loop (store f (caught_failure f e) p))
      | Resolved res =>
          if negb (Response.ok res)
          then Some (loop (store f (http_failure f res) p))
          else Some (AwaitJson f res, p)
      end
  | AwaitJson f res =>
      match Response.json res with
      | inl e => Some (loop (store f (caught_failure f e) p))
      | inr jsonRaw => Some (loop (store f (rollup env f res jsonRaw) p))
      end
  end.

Definition with_workers (ws : list worker) (p : Pool.t) : Pool.t :=
  {| Pool.i := Pool.i p;
     Pool.results := Pool.results p;
     Pool.workers := ws;
     Pool.requests := Pool.requests p |}.

(** The worker at position [k] is resumed, if it is suspended. *)
Definition resume (k : nat) (p : Pool.t) : option Pool.t :=
  match Pool.workers p !! k with
  | None => None
  | Some w =>
      match turn w p with
      | None => None
      | Some (w', p') => Some (with_workers (<[k := w']> (Pool.workers p')) p')
      end
  end.

(** [Array.from({ length: count }, () => worker())]: each call runs the
    new worker up to its first [await]. *)
Fixpoint spawn (count : nat) (p : Pool.t) : Pool.t :=
  match count with
  | O => p
  | S count' =>
      let '(w, p') := loop p in
      spawn count' (with_workers (Pool.workers p' ++ [w]) p')
  end.

(** The pool when [Promise.all] starts to wait. *)
Definition start : Pool.t := spawn concurrency idle.

(** The pool after the turns of a schedule: each entry names the worker
    whose [await] is settled next; an entry that names no suspended
    worker is skipped. *)
Fixpoint run (schedule : list nat) (p : Pool.t) : Pool.t :=
  match schedule with
  | [] => p
  | k :: rest => run rest (default p (resume k p))
  end.

Definition returned (w : worker) : bool :=
  match w with Returned => true | _ => false end.

(** [Promise.all] is fulfilled: every worker has returned. *)
Definition settled (p : Pool.t) : bool := forallb returned (Pool.workers p).

(** The object the response is made of.  [idsPriced] is
    [Object.keys(pricesUsd)]: the keys of the price table, here in the
    order of the map and not in the order in which the table was filled;
    the statements are about which identifiers are in the list. *)
Definition snapshot (p : Pool.t) : Snapshot.t :=
  {| Snapshot.generatedAt := Env.now env;
     Snapshot.pricing :=
       {| Pricing.apiKeyPresent :=
            match apiKey with Some key => truthy key | None => false end;
          Pricing.idsRequested := idsNeeded;
          Pricing.idsPriced := (map_to_list pricesUsd).*1;
          Pricing.error := pricingError |};
     Snapshot.count := length (Pool.results p);
     Snapshot.results := Pool.results p |}.

(** The body of the response under a schedule of completions, once every
    worker has returned; [None] while [Promise.all] is still pending. *)
Definition onRequest (schedule : list nat) : option Snapshot.t :=
  let p := run schedule start in
  if settled p then Some (snapshot p) else None.

(** What one iteration of the loop stores in [results], from its frame
    and the answer of the relayer: the three assignments of the loop body
    along its two [await]s. *)
Definition settle (f : Frame.t) : Outcome.t :=
  match Env.relayer env (Frame.idx f) (Frame.url f) with
  | Rejected e => caught_failure f e
  | Resolved res =>
      if negb (Response.ok res) then http_failure f res
      else match Response.json res with
           | inl e => caught_failure f e
           | inr jsonRaw => rollup env f res jsonRaw
           end
  end.

(** What the probe of the network [n] at [idx] stores in [results]. *)
Definition probe (idx : nat) (n : Network.t) : Outcome.t :=
  settle (frame idx n).

End OnRequest.

(* ===================================================================== *)
(** * The endpoint before the prices                                      *)
(* ===================================================================== *)

(** The earlier [onRequest], which probes the relayers in the same way
    and stores the payload as it is, without prices or rollup. *)

Module PlainOutcome.
Record t := mk {
  network : Network.t;
  url : string;
  ok : bool;
  status : N;
  error : option string;
  data : option json
}.
End PlainOutcome.

Module PlainSnapshot.
Record t := mk {
  generatedAt : string;
  count : nat;
  results : list (option PlainOutcome.t)
}.
End PlainSnapshot.

(** The locals of one iteration of the earlier worker. *)
Module PlainFrame.
Record t := mk {
  idx : nat;
  n : Network.t;
  url : string
}.
End PlainFrame.

Inductive plain_worker : Type :=
  | PlainAwaitFetch (f : PlainFrame.t)
  | PlainAwaitJson (f : PlainFrame.t) (res : Response.t)
  | PlainReturned.

Module PlainPool.
Record t := mk {
  i : nat;
  results : list (option PlainOutcome.t);
  workers : list plain_worker;
  requests : list (nat * string)
}.
End PlainPool.

Definition plain_idle : PlainPool.t :=
  {| PlainPool.i := 0; PlainPool.results := []; PlainPool.workers := [];
     PlainPool.requests := [] |}.

(** The object stored when [!res.ok]. *)
Definition plain_http_failure (f : PlainFrame.t) (res : Response.t)
  : PlainOutcome.t :=
  {| PlainOutcome.network := PlainFrame.n f;
     PlainOutcome.url := PlainFrame.url f;
     PlainOutcome.ok := false;
     PlainOutcome.status := Response.status res;
     PlainOutcome.error := Some ("HTTP " +:+ decimal (Response.status res));
     PlainOutcome.data := None |}.

(** The object stored by the [catch] clause. *)
Definition plain_caught_failure (f : PlainFrame.t) (e : thrown)
  : PlainOutcome.t :=
  {| PlainOutcome.network := PlainFrame.n f;
     PlainOutcome.url := PlainFrame.url f;
     PlainOutcome.ok := false;
     PlainOutcome.status := 0;
     PlainOutcome.error := Some (describe e);
     PlainOutcome.data := None |}.

(** The object stored at the end of the [try] block: [data: json]. *)
Definition plain_success (f : PlainFrame.t) (res : Response.t) (json : json)
  : PlainOutcome.t :=
  {| PlainOutcome.network := PlainFrame.n f;
     PlainOutcome.url := PlainFrame.url f;
     PlainOutcome.ok := true;
     PlainOutcome.status := Response.status res;
     PlainOutcome.error := None;
     PlainOutcome.data := Some json |}.

Section PlainOnRequest.

Variable env : Env.t.

Definition plain_store (f : PlainFrame.t) (outcome : PlainOutcome.t)
    (p : PlainPool.t) : PlainPool.t :=
  {| PlainPool.i := PlainPool.i p;
     PlainPool.results :=
       array_set (PlainPool.results p) (PlainFrame.idx f) outcome;
     PlainPool.workers := PlainPool.workers p;
     PlainPool.requests := PlainPool.requests p |}.

(** From the head of [while (i < networks.length)] to the next [await]. *)
Definition plain_loop (p : PlainPool.t) : plain_worker * PlainPool.t :=
  match Env.ALL env !! PlainPool.i p with
  | None => (PlainReturned, p)
  | Some n =>
      let f := {| PlainFrame.idx := PlainPool.i p; PlainFrame.n := n;
                  PlainFrame.url := status_url n |} in
      (PlainAwaitFetch f,
       {| PlainPool.i := S (PlainPool.i p);
          PlainPool.results := PlainPool.results p;
          PlainPool.workers := PlainPool.workers p;
          PlainPool.requests :=
            PlainPool.requests p ++ [(PlainFrame.idx f, PlainFrame.url f)] |})
  end.

Definition plain_turn (w : plain_worker) (p : PlainPool.t)
  : option (plain_worker * PlainPool.t) :=
  match w with
  | PlainReturned => None
  | PlainAwaitFetch f =>
      match Env.relayer env (PlainFrame.idx f) (PlainFrame.url f) with
      | Rejected e =>
          Some (plain_loop (plain_store f (plain_caught_failure f e) p))
      | Resolved res =>
          if negb (Response.ok res)
          then Some (plain_loop (plain_store f (plain_http_failure f res) p))
          else Some (PlainAwaitJson f res, p)
      end
  | PlainAwaitJson f res =>
      match Response.json res with
      | inl e => Some (plain_loop (plain_store f (plain_caught_failure f e) p))
      | inr json => Some (plain_loop (plain_store f (plain_success f res json) p))
      end
  end.

Definition plain_with_workers (ws : list plain_worker) (p : PlainPool.t)
  : PlainPool.t :=
  {| PlainPool.i := PlainPool.i p;
     PlainPool.results := PlainPool.results p;
     PlainPool.workers := ws;
     PlainPool.requests := PlainPool.requests p |}.

Definition plain_resume (k : nat) (p : PlainPool.t) : option PlainPool.t :=
  match PlainPool.workers p !! k with
  | None => None
  | Some w =>
      match plain_turn w p with
      | None => None
      | Some (w', p') =>
          Some (plain_with_workers (<[k := w']> (PlainPool.workers p')) p')
      end
  end.

Fixpoint plain_spawn (count : nat) (p : PlainPool.t) : PlainPool.t :=
  match count with
  | O => p
  | S count' =>
      let '(w, p') := plain_loop p in
      plain_spawn count' (plain_with_workers (PlainPool.workers p' ++ [w]) p')
  end.

Definition plain_start : PlainPool.t := plain_spawn concurrency plain_idle.

Fixpoint plain_run (schedule : list nat) (p : PlainPool.t) : PlainPool.t :=
  match schedule with
  | [] => p
  | k :: rest => plain_run rest (default p (plain_resume k p))
  end.

Definition plain_returned (w : plain_worker) : bool :=
  match w with PlainReturned => true | _ => false end.

Definition plain_settled (p : PlainPool.t) : bool :=
  forallb plain_returned (PlainPool.workers p).

(** The body of the response of the earlier endpoint under a schedule of
    completions; [None] while [Promise.all] is pending. *)
Definition plain_onRequest (schedule : list nat) : option PlainSnapshot.t :=
  let p := plain_run schedule plain_start in
  if plain_settled p
  then Some {| PlainSnapshot.generatedAt := Env.now env;
               PlainSnapshot.count := length (PlainPool.results p);
               PlainSnapshot.results := PlainPool.results p |}
  else None.

End PlainOnRequest.

(** An outcome of the endpoint with prices beside the one the earlier
    endpoint stores for the same probe.  The two have the same network
    and URL.  Either they have the same verdict, status and error, and,
    on a success, the new [data] has the fields of the earlier [data],
    its [senders] apart; or the earlier endpoint stored a success and the
    endpoint with prices, which computes a rollup inside its [try] block,
    stored what its [catch] clause stores: a failure with the status 0
    and an error, without [data]. *)
Definition agrees (old : PlainOutcome.t) (new : Outcome.t) : Prop :=
  PlainOutcome.network old = Outcome.network new ∧
  PlainOutcome.url old = Outcome.url new ∧
  ((PlainOutcome.ok old = Outcome.ok new ∧
    PlainOutcome.status old = Outcome.status new ∧
    PlainOutcome.error old = Outcome.error new ∧
    match PlainOutcome.data old, Outcome.data new with
    | Some payload, Some data =>
        ∀ key, key ≠ "senders" → get_prop data key = spreadable payload !! key
    | None, None => True
    | _, _ => False
    end) ∨
   (PlainOutcome.ok old = true ∧
    Outcome.ok new = false ∧
    Outcome.status new = 0%N ∧
    is_Some (Outcome.error new) ∧
    Outcome.data new = None ∧
    Outcome.summary new = None)).

Definition same_frame (old : PlainFrame.t) (new : Frame.t) : Prop :=
  PlainFrame.idx old = Frame.idx new ∧
  PlainFrame.n old = Frame.n new ∧
  PlainFrame.url old = Frame.url new.

Definition same_worker (old : plain_worker) (new : worker) : Prop :=
  match old, new with
  | PlainAwaitFetch f, AwaitFetch g => same_frame f g
  | PlainAwaitJson f res, AwaitJson g res' => same_frame f g ∧ res = res'
  | PlainReturned, Returned => True
  | _, _ => False
  end.

Definition same_pool (old : PlainPool.t) (new : Pool.t) : Prop :=
  PlainPool.i old = Pool.i new ∧
  PlainPool.requests old = Pool.requests new ∧
  Forall2 same_worker (PlainPool.workers old) (Pool.workers new) ∧
  Forall2 (option_Forall2 agrees) (PlainPool.results old) (Pool.results new).

(** What a turn of a worker gives in the two endpoints. *)
Definition same_step (old : option (plain_worker * PlainPool.t))
    (new : option (worker * Pool.t)) : Prop :=
  match old, new with
  | Some (w0, p0), Some (w, p) => same_worker w0 w ∧ same_pool p0 p
  | None, None => True
  | _, _ => False
  end.

(* ===================================================================== *)
(** * The dashboard ([web/src/App.tsx])                                   *)
(* ===================================================================== *)

(** The types the dashboard gives to the response of [/api/status]: the
    numbers are those [res.json()] parsed. *)
Module ApiSummary.
Record t := mk {
  senderCount : float;
  zeroCount : option float;
  totalNative : float;
  totalUsd : option float;
  minNative : option float;
  minUsd : option float;
  lowEth : option bool
}.
End ApiSummary.

Module ApiResult.
Record t := mk {
  network : Network.t;
  url : string;
  ok : bool;
  status : float;
  error : option string;
  nativeToken : option NativeToken.t;
  summary : option ApiSummary.t;
  data : option json
}.
End ApiResult.

Module ApiResponse.
Record t := mk {
  generatedAt : string;
  count : float;
  results : list ApiResult.t
}.
End ApiResponse.

(** The state [filter]: ['all' | 'zero' | 'lowEth']. *)
Module Filter.
Inductive t := all | zero | lowEth.
End Filter.

(** [hay.includes(q)] *)
Fixpoint includes (hay q : string) : bool :=
  String.prefix q hay ||
  match hay with
  | EmptyString => false
  | String _ rest => includes rest q
  end.

(** [r.summary?.zeroCount ?? 0] *)
Definition zeroCount_or_0 (r : ApiResult.t) : float :=
  default Num.zero (ApiResult.summary r ≫= ApiSummary.zeroCount).

(** [!!r.summary?.lowEth] *)
Definition flagged_lowEth (r : ApiResult.t) : bool :=
  default false (ApiResult.summary r ≫= ApiSummary.lowEth).

(** The variables of the loop of [summary]. *)
Module Tally.
Record t := mk {
  chainsUp : nat;
  chainsDown : nat;
  zeroSenders : float;
  totalUsd : float;
  hasUsd : bool;
  lowEthChains : nat
}.
End Tally.

(** The object [summary] returns. *)
Module Overview.
Record t := mk {
  chainsUp : nat;
  chainsDown : nat;
  zeroSenders : float;
  lowEthChains : nat;
  total : nat;
  totalUsd : option float
}.
End Overview.

(** [typeof r.summary?.totalUsd === 'number' && r.network.type !== 'testnet'],
    and then [r.summary.totalUsd]. *)
Definition mainnet_usd (r : ApiResult.t) : option float :=
  match ApiResult.summary r ≫= ApiSummary.totalUsd,
        Network.type (ApiResult.network r) with
  | Some usd, Network.mainnet => Some usd
  | _, _ => None
  end.

(** The body of the loop [for (const r of results)] of [summary]. *)
Definition tally (acc : Tally.t) (r : ApiResult.t) : Tally.t :=
  if negb (ApiResult.ok r) then
    {| Tally.chainsUp := Tally.chainsUp acc;
       Tally.chainsDown := Tally.chainsDown acc + 1;
       Tally.zeroSenders := Tally.zeroSenders acc;
       Tally.totalUsd := Tally.totalUsd acc;
       Tally.hasUsd := Tally.hasUsd acc;
       Tally.lowEthChains := Tally.lowEthChains acc |}
  else
    {| Tally.chainsUp := Tally.chainsUp acc + 1;
       Tally.chainsDown := Tally.chainsDown acc;
       Tally.zeroSenders := Num.add (Tally.zeroSenders acc) (zeroCount_or_0 r);
       Tally.totalUsd :=
         match mainnet_usd r with
         | Some usd => Num.add (Tally.totalUsd acc) usd
         | None => Tally.totalUsd acc
         end;
       Tally.hasUsd :=
         match mainnet_usd r with
         | Some _ => true
         | None => Tally.hasUsd acc
         end;
       Tally.lowEthChains :=
         if flagged_lowEth r then Tally.lowEthChains acc + 1
         else Tally.lowEthChains acc |}.

(** [data?.results ?? []] *)
Definition results_of (data : option ApiResponse.t) : list ApiResult.t :=
  match data with
  | Some response => ApiResponse.results response
  | None => []
  end.

(** The callback of the [useMemo] that computes [summary]. *)
Definition summary (data : option ApiResponse.t) : Overview.t :=
  let results := results_of data in
  let acc :=
    foldl tally
          {| Tally.chainsUp := 0; Tally.chainsDown := 0;
             Tally.zeroSenders := Num.zero; Tally.totalUsd := Num.zero;
             Tally.hasUsd := false; Tally.lowEthChains := 0 |}
          results in
  {| Overview.chainsUp := Tally.chainsUp acc;
     Overview.chainsDown := Tally.chainsDown acc;
     Overview.zeroSenders := Tally.zeroSenders acc;
     Overview.lowEthChains := Tally.lowEthChains acc;
     Overview.total := length results;
     Overview.totalUsd :=
       if Tally.hasUsd acc then Some (Tally.totalUsd acc) else None |}.

(** The results that count towards the total in USD: up, on a mainnet,
    with a numeric [totalUsd]. *)
Definition counted_usd (results : list ApiResult.t) : list float :=
  omap (λ r, if ApiResult.ok r then mainnet_usd r else None) results.

Section Filtered.

(** [String.prototype.trim] and [String.prototype.toLowerCase]. *)
Variables trim toLowerCase : string → string.

(** [`${r.network.name} ${r.network.title} ${r.network.chainId}`.toLowerCase()] *)
Definition hay (r : ApiResult.t) : string :=
  toLowerCase (Network.name (ApiResult.network r) +:+ " " +:+
               Network.title (ApiResult.network r) +:+ " " +:+
               decimal (Network.chainId (ApiResult.network r))).

(** The callback of the [useMemo] that computes [filtered]. *)
Definition filtered (data : option ApiResponse.t) (query : string)
    (filter : Filter.t) : list ApiResult.t :=
  let results := results_of data in
  let q := toLowerCase (trim query) in
  let results :=
    if truthy q
    then List.filter (λ r, includes (hay r) q) results
    else results in
  let results :=
    match filter with
    | Filter.zero =>
        List.filter (λ r, Num.ltb Num.zero (zeroCount_or_0 r)) results
    | _ => results
    end in
  let results :=
    match filter with
    | Filter.lowEth => List.filter flagged_lowEth results
    | _ => results
    end in
  results.

End Filtered.

(* ===================================================================== *)
(** * Notions for the statements                                          *)
(* ===================================================================== *)

(** The value in a slot: [None] for a hole and past the end. *)
Definition slot {A} (arr : list (option A)) (k : nat) : option A :=
  mjoin (arr !! k).

(** The [senders] of the enriched payload of an outcome; none when the
    outcome has no [data]. *)
Definition enrichedSenders (o : Outcome.t) : list json :=
  match Outcome.data o with
  | Some data => senders_of data
  | None => []
  end.

(** The [usdValue] of an enriched sender. *)
Definition usdValue (s : json) : option json := get_prop s "usdValue".

(** The workers that are suspended. *)
Definition suspended (ws : list worker) : list worker :=
  filter (λ w, returned w = false) ws.

(** Two environments that differ at most in the answer of the relayer to
    the probe at index [i], and in the clock. *)
Definition differ_only_at (i : nat) (env env' : Env.t) : Prop :=
  Env.ALL env' = Env.ALL env ∧
  Env.COINGECKO_API_KEY env' = Env.COINGECKO_API_KEY env ∧
  Env.coingecko env' = Env.coingecko env ∧
  Env.ToNumber env' = Env.ToNumber env ∧
  ∀ j url, j ≠ i → Env.relayer env' j url = Env.relayer env j url.

Section Notions.

Context (env : Env.t).

(** The frame a suspended worker holds. *)
Definition holds (w : worker) : option Frame.t :=
  match w with
  | AwaitFetch f | AwaitJson f _ => Some f
  | Returned => None
  end.

(** The slot [k] of [results] has been assigned. *)
Definition written (p : Pool.t) (k : nat) : Prop :=
  is_Some (slot (Pool.results p) k).

(** A frame is the one computed for an index already taken. *)
Definition taken (p : Pool.t) (f : Frame.t) : Prop :=
  (Frame.idx f < Pool.i p)%nat ∧
  ∃ n, networks env !! Frame.idx f = Some n ∧ f = frame env (Frame.idx f) n.

(** What is known of a worker between two turns. *)
Definition sound (p : Pool.t) (w : worker) : Prop :=
  match w with
  | AwaitFetch f => taken p f
  | AwaitJson f res =>
      taken p f ∧
      Env.relayer env (Frame.idx f) (Frame.url f) = Resolved res ∧
      Response.ok res = true
  | Returned => Pool.i p = length (networks env)
  end.

Record Inv (p : Pool.t) : Prop := {
  inv_bound : (Pool.i p ≤ length (networks env))%nat;
  inv_requests :
    Pool.requests p =
    imap (λ k n, (k, Frame.url (frame env k n))) (take (Pool.i p) (networks env));
  inv_length : (length (Pool.results p) ≤ Pool.i p)%nat;
  inv_results : ∀ k o,
    slot (Pool.results p) k = Some o →
    ∃ n, networks env !! k = Some n ∧ o = probe env k n;
  inv_covered : ∀ k,
    (k < Pool.i p)%nat →
    written p k ∨ ∃ w f, w ∈ Pool.workers p ∧ holds w = Some f ∧ Frame.idx f = k;
  inv_workers : ∀ w, w ∈ Pool.workers p → sound p w
}.

(** The [await]s a worker may still have to pass in its current
    iteration. *)
Definition awaits (w : worker) : nat :=
  match w with
  | AwaitFetch _ => 2
  | AwaitJson _ _ => 1
  | Returned => 0
  end.

(** A bound on the turns that are left: two for each index not yet taken,
    and those of the suspended workers. *)
Definition remaining (p : Pool.t) : nat :=
  2 * (length (networks env) - Pool.i p) + sum_list (awaits <$> Pool.workers p).

End Notions.

(** The slot [k] of [results] is assigned or it is not. *)
#[global] Instance written_dec p k : Decision (written p k).
Proof. unfold written. apply _. Defined.

(** The probes in flight: the indices for which [fetch] has been called
    and whose slot of [results] is not assigned yet. *)
Definition in_flight (p : Pool.t) : list nat :=
  filter (λ k, ¬ written p k) (Pool.requests p).*1.

(** [status] is in the range 200-299. *)
Definition status_2xx (status : N) : bool :=
  ((200 <=? status) && (status <=? 299))%N.

(** The senders of a list whose [etherBalance] is a number that is at
    most zero, or is no number: [null] and no balance at all stand for
    0. *)
Definition at_zero (senders : list json) : list json :=
  filter (λ s, match get_prop s "etherBalance" with
               | Some (JNum x) => PrimFloat.leb x PrimFloat.zero
               | _ => true
               end = true) senders.

(** The names of the members of [Object.prototype], which a lookup by
    key in an object literal finds when the object has no own property of
    that name. *)
Definition Object_prototype_members : list string :=
  [ "constructor"; "hasOwnProperty"; "isPrototypeOf";
    "propertyIsEnumerable"; "toLocaleString"; "toString"; "valueOf";
    "__proto__"; "__defineGetter__"; "__defineSetter__";
    "__lookupGetter__"; "__lookupSetter__" ].

(** No symbol of a native currency of the registry names a member of
    [Object.prototype]: [COINGECKO_ID_BY_SYMBOL[sym]] is then the own
    property of the table, if there is one, as [resolve] has it. *)
Definition own_symbols (registry : list Network.t) : bool :=
  forallb (λ n,
             match Network.nativeCurrency n with
             | Some currency =>
                 negb (existsb (String.eqb (NativeCurrency.symbol currency))
                               Object_prototype_members)
             | None => true
             end) registry.

(** No network of the registry is named [__proto__], the one key under
    which the assignment [coinGeckoIdByNetworkName[n.name] = id] stores
    nothing. *)
Definition own_names (registry : list Network.t) : bool :=
  forallb (λ n, negb (String.eqb (Network.name n) "__proto__")) registry.


(** The [etherBalance] of a sender is a number, [null] or absent: the
    comparison [(s.etherBalance ?? 0) <= 0] coerces nothing. *)
Definition plain_balance (s : json) : Prop :=
  match get_prop s "etherBalance" with
  | None | Some JNull | Some (JNum _) => True
  | Some _ => False
  end.

(* ===================================================================== *)
(** * Worked examples                                                     *)
(* ===================================================================== *)

Definition obj (fields : list (string * json)) : json :=
  JObj (list_to_map fields).

Definition ether : NativeCurrency.t :=
  {| NativeCurrency.symbol := "ETH"; NativeCurrency.name := "Ether";
     NativeCurrency.decimals := 18 |}.

Definition example_network (name : string) (chainId : N)
    (currency : option NativeCurrency.t) : Network.t :=
  {| Network.name := name; Network.chainId := chainId; Network.title := name;
     Network.type := Network.mainnet; Network.nativeCurrency := currency |}.

(** Four networks: the first answers 200 with two senders, one of them
    without a balance; the second answers 503; the third cannot be
    reached; the fourth answers 200 with a payload without [senders]. *)
Definition example_networks : list Network.t :=
  [ example_network "mainnet" 1 (Some ether);
    example_network "arbitrum" 42161 (Some ether);
    example_network "nowhere" 7 None;
    example_network "base" 8453 (Some ether) ].

Definition example_payload : json :=
  obj [ ("senders", JArr [
           obj [("index", JNum 0); ("etherBalance", JNum 0.5)];
           obj [("index", JNum 1)] ]);
        ("healthOK", JBool true);
        ("ver", JStr "v1") ].

Definition example_response : Response.t :=
  {| Response.status := 200; Response.json := inr example_payload |}.

Definition example_unavailable : Response.t :=
  {| Response.status := 503;
     Response.json := inl (JsError "SyntaxError" "Unexpected token") |}.

Definition example_fault : thrown := JsError "TypeError" "fetch failed".

Definition example_relayer (idx : nat) (url : string) : fetched :=
  match idx with
  | 0 => Resolved example_response
  | 1 => Resolved example_unavailable
  | 2 => Rejected example_fault
  | _ => Resolved {| Response.status := 200;
                     Response.json := inr (obj [("healthOK", JBool true)]) |}
  end.

(** The price feed quotes 2000 USD for [ethereum]. *)
Definition example_feed (request : PriceRequest.t) : fetched :=
  Resolved {| Response.status := 200;
              Response.json :=
                inr (obj [("ethereum", obj [("usd", JNum 2000)])]) |}.

(** The price feed answers 429. *)
Definition example_feed_down (request : PriceRequest.t) : fetched :=
  Resolved {| Response.status := 429; Response.json := inr JNull |}.

Definition example_env : Env.t :=
  {| Env.ALL := example_networks;
     Env.COINGECKO_API_KEY := None;
     Env.coingecko := example_feed;
     Env.relayer := example_relayer;
     Env.now := "2026-02-10T00:00:00.000Z";
     Env.ToNumber := λ _, PrimFloat.nan |}.

Definition example_env_unpriced : Env.t :=
  {| Env.ALL := example_networks;
     Env.COINGECKO_API_KEY := None;
     Env.coingecko := example_feed_down;
     Env.relayer := example_relayer;
     Env.now := "2026-02-10T00:00:00.000Z";
     Env.ToNumber := λ _, PrimFloat.nan |}.

(** One network only. *)
Definition example_env_single : Env.t :=
  {| Env.ALL := [example_network "mainnet" 1 (Some ether)];
     Env.COINGECKO_API_KEY := None;
     Env.coingecko := example_feed;
     Env.relayer := example_relayer;
     Env.now := "2026-02-10T00:00:00.000Z";
     Env.ToNumber := λ _, PrimFloat.nan |}.



(** The fourth probe completes first, the first one last. *)
Definition example_schedule : list nat := [3; 1; 3; 2; 0; 0].

(** The probes complete in the order of the registry. *)
Definition example_schedule_in_order : list nat := [0; 0; 1; 2; 3; 3].

Definition example_snapshot (env : Env.t) (schedule : list nat) : Snapshot.t :=
  snapshot env (run env schedule (start env)).

(** A relayer that answers 200 with a body that is not JSON. *)
Definition example_garbled : Response.t :=
  {| Response.status := 200;
     Response.json := inl (JsError "SyntaxError" "Unexpected token '<'") |}.

Definition example_env_garbled : Env.t :=
  {| Env.ALL := [example_network "mainnet" 1 (Some ether)];
     Env.COINGECKO_API_KEY := None;
     Env.coingecko := example_feed;
     Env.relayer := λ _ _, Resolved example_garbled;
     Env.now := "2026-02-10T00:00:00.000Z";
     Env.ToNumber := λ _, PrimFloat.nan |}.

(** A registry whose currencies are not in the table of identifiers, and
    a price feed that cannot be reached. *)
Definition example_env_unlisted : Env.t :=
  {| Env.ALL := [example_network "nowhere" 7 None;
                 example_network "elsewhere" 8
                   (Some {| NativeCurrency.symbol := "ZZZ";
                            NativeCurrency.name := "Zed";
                            NativeCurrency.decimals := 18 |})];
     Env.COINGECKO_API_KEY := None;
     Env.coingecko := λ _, Rejected example_fault;
     Env.relayer := example_relayer;
     Env.now := "2026-02-10T00:00:00.000Z";
     Env.ToNumber := λ _, PrimFloat.nan |}.

(** A payload of which the only sender has for [etherBalance] an object
    with a [toString] of its own. *)
Definition example_payload_uncoercible : json :=
  obj [ ("senders", JArr [
           obj [("index", JNum 0);
                ("etherBalance", obj [("toString", JNum 0)])] ]);
        ("healthOK", JBool true) ].

Definition example_env_uncoercible : Env.t :=
  {| Env.ALL := [example_network "mainnet" 1 (Some ether)];
     Env.COINGECKO_API_KEY := None;
     Env.coingecko := example_feed;
     Env.relayer := λ _ _,
       Resolved {| Response.status := 200;
                   Response.json := inr example_payload_uncoercible |};
     Env.now := "2026-02-10T00:00:00.000Z";
     Env.ToNumber := λ _, PrimFloat.nan |}.

(** A price feed that also quotes a price under the key [__proto__]. *)
Definition example_env_proto : Env.t :=
  {| Env.ALL := example_networks;
     Env.COINGECKO_API_KEY := None;
     Env.coingecko := λ _,
       Resolved {| Response.status := 200;
                   Response.json :=
                     inr (obj [("ethereum", obj [("usd", JNum 2000)]);
                               ("__proto__", obj [("usd", JNum 1)])]) |};
     Env.relayer := example_relayer;
     Env.now := "2026-02-10T00:00:00.000Z";
     Env.ToNumber := λ _, PrimFloat.nan |}.

(** What the price feed of [example_env] answers. *)
Definition example_quotes : json :=
  obj [("ethereum", obj [("usd", JNum 2000)])].

(* ===================================================================== *)
(** * The order of the numbers                                            *)
(* ===================================================================== *)

(** The comparisons of binary64 values, through their specification
    [SFcompare]: on the values that are not NaN, [<=] is a total
    preorder, and [Math.min] returns a least element of its arguments. *)

Lemma SFcompare_refl s : s ≠ S754_nan → SFcompare s s = Some Eq.
Proof.
  destruct s as [sg|sg| |sg m e]; simpl; try done.
  - by destruct sg.
  - intros _. rewrite Z.compare_refl.
    change (Pos.compare_cont Eq m m) with (Pos.compare m m).
    rewrite Pos.compare_refl. by destruct sg.
Qed.

Lemma Num_is_nan_false x : Num.is_nan x = false ↔ Prim2SF x ≠ S754_nan.
Proof.
  unfold Num.is_nan, is_nan. rewrite FloatAxioms.eqb_spec. unfold SFeqb. split.
  - intros H E. rewrite E in H. done.
  - intros H. by rewrite SFcompare_refl.
Qed.

Ltac cmp_cases :=
  repeat match goal with
  | H : context [Z.compare ?a ?b] |- _ => destruct (Z.compare_spec a b); simpl in H
  | |- context [Z.compare ?a ?b] => destruct (Z.compare_spec a b); simpl
  | H : context [Pos.compare ?a ?b] |- _ => destruct (Pos.compare_spec a b); simpl in H
  | |- context [Pos.compare ?a ?b] => destruct (Pos.compare_spec a b); simpl
  end.

Lemma SFleb_trans a b c : SFleb a b = true → SFleb b c = true → SFleb a c = true.
Proof.
  unfold SFleb.
  destruct a as [sa|sa| |sa ma ea], b as [sb|sb| |sb mb eb], c as [sc|sc| |sc mc ec];
    simpl; try done;
    try (destruct sa); try (destruct sb); try (destruct sc); simpl; try done.
  all: change (Pos.compare_cont Eq) with Pos.compare.
  all: intros H1 H2; cmp_cases; try done; try lia.
Qed.

Lemma SFleb_total a b : a ≠ S754_nan → b ≠ S754_nan → SFltb a b = false → SFleb b a = true.
Proof.
  unfold SFleb, SFltb.
  destruct a as [sa|sa| |sa ma ea], b as [sb|sb| |sb mb eb];
    simpl; try done;
    try (destruct sa); try (destruct sb); simpl; try done.
  all: change (Pos.compare_cont Eq) with Pos.compare.
  all: intros _ _ H1; cmp_cases; try done; try lia.
Qed.

Lemma SFltb_leb a b : SFltb a b = true → SFleb a b = true.
Proof. unfold SFleb, SFltb. by destruct (SFcompare a b) as [[]|]. Qed.

Lemma Num_leb_trans x y z : Num.leb x y = true → Num.leb y z = true → Num.leb x z = true.
Proof. unfold Num.leb. rewrite !leb_spec. apply SFleb_trans. Qed.

Lemma Num_leb_total x y :
  Num.is_nan x = false → Num.is_nan y = false → Num.ltb x y = false → Num.leb y x = true.
Proof.
  rewrite !Num_is_nan_false. unfold Num.leb, Num.ltb. rewrite leb_spec, ltb_spec.
  apply SFleb_total.
Qed.

Lemma Num_ltb_leb x y : Num.ltb x y = true → Num.leb x y = true.
Proof. unfold Num.leb, Num.ltb. rewrite leb_spec, ltb_spec. apply SFltb_leb. Qed.

Lemma Num_leb_refl x : Num.is_nan x = false → Num.leb x x = true.
Proof.
  rewrite Num_is_nan_false. unfold Num.leb. rewrite leb_spec. unfold SFleb.
  intros H. by rewrite SFcompare_refl.
Qed.

Lemma is_neg_zero_spec x : Num.is_neg_zero x = true → Prim2SF x = S754_zero true.
Proof.
  unfold Num.is_neg_zero. rewrite classify_spec. unfold SF64classify, SFclassify.
  destruct (Prim2SF x) as [[]|[]| |[] m e]; try done.
  all: by destruct (Z.eqb _ _).
Qed.

Lemma is_pos_zero_spec x : Num.is_pos_zero x = true → Prim2SF x = S754_zero false.
Proof.
  unfold Num.is_pos_zero. rewrite classify_spec. unfold SF64classify, SFclassify.
  destruct (Prim2SF x) as [[]|[]| |[] m e]; try done.
  all: by destruct (Z.eqb _ _).
Qed.

Lemma neg_zero_leb x y :
  Num.is_neg_zero x = true → Num.is_pos_zero y = true → Num.leb x y = true.
Proof.
  intros Hx%is_neg_zero_spec Hy%is_pos_zero_spec.
  unfold Num.leb. by rewrite leb_spec, Hx, Hy.
Qed.

Lemma Num_leb_infinity y : Num.leb infinity y = true → y = infinity.
Proof.
  unfold Num.leb. rewrite leb_spec. intros H. apply Prim2SF_inj.
  replace (Prim2SF infinity) with (S754_infinity false) in * by reflexivity.
  unfold SFleb in H. by destruct (Prim2SF y) as [[]|[]| |[] m e].
Qed.

Lemma min_from_spec xs : ∀ lowest,
  Num.is_nan lowest = false →
  Forall (λ x, Num.is_nan x = false) xs →
  Num.is_nan (Num.min_from lowest xs) = false ∧
  Num.leb (Num.min_from lowest xs) lowest = true ∧
  (∀ x, x ∈ xs → Num.leb (Num.min_from lowest xs) x = true) ∧
  (Num.min_from lowest xs = lowest ∨ Num.min_from lowest xs ∈ xs).
Proof.
  induction xs as [|x xs IH]; intros lowest Hl Hxs; simpl.
  - repeat split; [done|by apply Num_leb_refl| |by left].
    intros x Hx. by apply elem_of_nil in Hx.
  - apply Forall_cons in Hxs as [Hx Hxs]. rewrite Hx.
    destruct ((Num.is_neg_zero x && Num.is_pos_zero lowest) || Num.ltb x lowest) eqn:E.
    + destruct (IH x Hx Hxs) as (Hn & Hle & Hall & Hmem).
      assert (Hxl : Num.leb x lowest = true).
      { apply orb_true_iff in E as [[? ?]%andb_true_iff|?];
          [by apply neg_zero_leb|by apply Num_ltb_leb]. }
      repeat split; [done|by eapply Num_leb_trans| |].
      * intros y [->|Hy]%elem_of_cons; [done|by apply Hall].
      * right. destruct Hmem as [->|?]; [left|by right].
    + destruct (IH lowest Hl Hxs) as (Hn & Hle & Hall & Hmem).
      apply orb_false_iff in E as [_ E].
      repeat split; [done|done| |].
      * intros y [->|Hy]%elem_of_cons; [|by apply Hall].
        eapply Num_leb_trans; [exact Hle|]. by apply Num_leb_total.
      * destruct Hmem as [->|?]; [by left|right; by right].
Qed.

Lemma Math_min_spec xs :
  xs ≠ [] → Forall (λ x, Num.is_nan x = false) xs →
  Num.Math_min xs ∈ xs ∧ ∀ x, x ∈ xs → Num.leb (Num.Math_min xs) x = true.
Proof.
  intros Hne Hxs. unfold Num.Math_min.
  destruct (min_from_spec xs infinity eq_refl Hxs) as (_ & _ & Hall & Hmem).
  split; [|done]. destruct Hmem as [Heq|?]; [|done].
  destruct xs as [|x xs]; [done|].
  specialize (Hall x ltac:(left)). rewrite Heq in Hall.
  apply Num_leb_infinity in Hall. rewrite Heq, <- Hall. left.
Qed.


(* ===================================================================== *)
(** * Arrays with holes                                                   *)
(* ===================================================================== *)

Lemma array_set_length {A} (arr : list (option A)) idx v :
  length (array_set arr idx v) = length arr `max` S idx.
Proof.
  unfold array_set. case_decide.
  - rewrite length_insert. lia.
  - rewrite !length_app, length_replicate. simpl. lia.
Qed.

Lemma slot_array_set_eq {A} (arr : list (option A)) idx v :
  slot (array_set arr idx v) idx = Some v.
Proof.
  unfold slot, array_set. case_decide.
  - by rewrite list_lookup_insert_eq.
  - rewrite lookup_app_r by lia.
    rewrite lookup_app_r by (rewrite length_replicate; lia).
    rewrite length_replicate.
    by replace (idx - length arr - (idx - length arr)) with 0 by lia.
Qed.

Lemma slot_array_set_ne {A} (arr : list (option A)) idx v k :
  k ≠ idx → slot (array_set arr idx v) k = slot arr k.
Proof.
  intros Hne. unfold slot, array_set. case_decide.
  - by rewrite list_lookup_insert_ne.
  - destruct (decide (k < length arr)) as [Hlt|Hge].
    + by rewrite lookup_app_l.
    + rewrite (lookup_ge_None_2 arr k) by lia.
      rewrite lookup_app_r by lia.
      destruct (decide (k - length arr < idx - length arr)) as [Hin|Hout].
      * rewrite lookup_app_l by (by rewrite length_replicate).
        by rewrite lookup_replicate_2.
      * rewrite lookup_app_r by (rewrite length_replicate; lia).
        rewrite length_replicate.
        rewrite lookup_ge_None_2; [done|]. simpl. lia.
Qed.

Lemma slot_Some_lt {A} (arr : list (option A)) k v :
  slot arr k = Some v → k < length arr.
Proof.
  unfold slot. destruct (arr !! k) eqn:E; [|done].
  intros _. by eapply lookup_lt_Some.
Qed.

(** An array whose slots below its length are all filled. *)
Lemma filled_array {A B} (arr : list (option A)) (src : list B) (g : nat → B → A) :
  (length arr ≤ length src)%nat →
  (∀ k b, src !! k = Some b → slot arr k = Some (g k b)) →
  arr = imap (λ k b, Some (g k b)) src.
Proof.
  intros Hlen Hfill. apply list_eq. intros k.
  rewrite list_lookup_imap.
  destruct (src !! k) as [b|] eqn:E; simpl.
  - specialize (Hfill _ _ E). unfold slot in Hfill.
    destruct (arr !! k) as [[a|]|]; simplify_eq/=; done.
  - apply lookup_ge_None_2. apply lookup_ge_None_1 in E. lia.
Qed.

(* ===================================================================== *)
(** * The invariant of the pool                                           *)
(* ===================================================================== *)

Section Invariant.

Context (env : Env.t).

Lemma Inv_idle : Inv env idle.
Proof.
  split; simpl; try done.
  - lia.
  - intros k Hk. lia.
  - intros w H. by apply elem_of_nil in H.
Qed.

(** Storing the outcome of the probe a worker holds. *)
Lemma Inv_store p f o :
  Inv env p → taken env p f →
  o = settle env f →
  Inv env (store f o p) ∧ written (store f o p) (Frame.idx f).
Proof.
  intros [Hb Hr Hl Hres Hcov Hw] [Hlt [n [Hn Hf]]] Ho.
  split; [split; simpl; try done|].
  - rewrite array_set_length. lia.
  - intros k o' Hk. destruct (decide (k = Frame.idx f)) as [->|Hne].
    + rewrite slot_array_set_eq in Hk. exists n. split; [done|].
      unfold probe. congruence.
    + rewrite slot_array_set_ne in Hk by done. eauto.
  - intros k Hk. destruct (Hcov k Hk) as [Hwr|Hheld]; [left|by right].
    unfold written in *. simpl.
    destruct (decide (k = Frame.idx f)) as [->|Hne].
    + by rewrite slot_array_set_eq.
    + by rewrite slot_array_set_ne.
  - unfold written. simpl. by rewrite slot_array_set_eq.
Qed.

(** The workers change, the shared variables do not. *)
Lemma Inv_workers p ws :
  Inv env p →
  (∀ w, w ∈ ws → sound env p w) →
  (∀ w f, w ∈ Pool.workers p → holds w = Some f →
          written p (Frame.idx f) ∨ ∃ w', w' ∈ ws ∧ holds w' = Some f) →
  Inv env (with_workers ws p).
Proof.
  intros [Hb Hr Hl Hres Hcov Hw] Hsound Hkeep.
  split; simpl; try done.
  intros k Hk. destruct (Hcov k Hk) as [Hwr|(w & f & Hin & Hh & Hidx)]; [by left|].
  destruct (Hkeep w f Hin Hh) as [Hwr|(w' & Hin' & Hh')].
  - left. by rewrite <- Hidx.
  - right. eauto.
Qed.

Lemma sound_mono p p' w :
  Pool.i p = Pool.i p' → sound env p w → sound env p' w.
Proof.
  intros Hi. destruct w; unfold sound, taken; rewrite Hi; done.
Qed.

(** After [loop], the worker it leaves is put among the others. *)
Lemma Inv_loop p ws :
  Inv env p →
  (∀ w, w ∈ ws → w ∈ Pool.workers p ∨ w = (loop env p).1) →
  (loop env p).1 ∈ ws →
  (∀ w f, w ∈ Pool.workers p → holds w = Some f →
          written p (Frame.idx f) ∨ w ∈ ws) →
  Inv env (with_workers ws (loop env p).2).
Proof.
  intros HI Hsub Hnew Hkeep. unfold loop in *.
  destruct (networks env !! Pool.i p) as [n|] eqn:En; simpl in *.
  - (* the index [i] is taken env *)
    destruct HI as [Hb Hr Hl Hres Hcov Hw].
    assert (Hlt : (Pool.i p < length (networks env))%nat)
      by (by eapply lookup_lt_Some).
    assert (Htaken : taken env
      {| Pool.i := S (Pool.i p); Pool.results := Pool.results p;
         Pool.workers := ws;
         Pool.requests := Pool.requests p ++
           [(Pool.i p, Frame.url (frame env (Pool.i p) n))] |}
      (frame env (Pool.i p) n)).
    { split; simpl; [lia|]. eauto. }
    split; simpl.
    + lia.
    + rewrite (take_S_r _ _ _ En), imap_app, Hr. simpl.
      rewrite length_take, Nat.min_l by lia. by rewrite Nat.add_0_r.
    + lia.
    + done.
    + intros k Hk. destruct (decide (k = Pool.i p)) as [->|Hne].
      * right. eexists _, _. split; [exact Hnew|]. done.
      * destruct (Hcov k ltac:(lia)) as [Hwr|(w & f & Hin & Hh & Hidx)];
          [by left|].
        destruct (Hkeep w f Hin Hh) as [Hwr|Hin'].
        -- left. by rewrite <- Hidx.
        -- right. eauto.
    + intros w Hin. destruct (Hsub w Hin) as [Hold| ->]; [|exact Htaken].
      specialize (Hw w Hold). destruct w; simpl in *.
      * destruct Hw as [? ?]. split; simpl; [lia|done].
      * destruct Hw as [[? ?] ?]. split; [split; simpl; [lia|done]|done].
      * lia.
  - (* the worker returns *)
    assert (Hlen : Pool.i p = length (networks env)).
    { apply lookup_ge_None_1 in En. destruct HI. lia. }
    apply Inv_workers; [done| |].
    + intros w Hin. destruct (Hsub w Hin) as [Hold| ->].
      * by apply HI.
      * exact Hlen.
    + intros w f Hin Hh. destruct (Hkeep w f Hin Hh); [by left|right; eauto].
Qed.

End Invariant.

Section Execution.

Context (env : Env.t).

Lemma loop_workers p : Pool.workers (loop env p).2 = Pool.workers p.
Proof. unfold loop. by destruct (networks env !! Pool.i p). Qed.

Lemma elem_of_insert_inv {A} (l : list A) k x y :
  y ∈ <[k := x]> l → y ∈ l ∨ y = x.
Proof.
  intros [j Hj]%list_elem_of_lookup_1.
  destruct (decide (j = k)) as [->|Hne].
  - destruct (decide (k < length l)) as [Hlt|Hge].
    + rewrite list_lookup_insert_eq in Hj by done. right. congruence.
    + rewrite list_insert_ge in Hj by lia. left.
      by eapply list_elem_of_lookup_2.
  - rewrite list_lookup_insert_ne in Hj by done. left.
    by eapply list_elem_of_lookup_2.
Qed.

Lemma elem_of_insert_keep {A} (l : list A) k x y z :
  y ∈ l → l !! k = Some x → y = x ∨ y ∈ <[k := z]> l.
Proof.
  intros [j Hj]%list_elem_of_lookup_1 Hk.
  destruct (decide (j = k)) as [->|Hne].
  - left. congruence.
  - right. apply (list_elem_of_lookup_2 _ j).
    by rewrite list_lookup_insert_ne.
Qed.

(** The invariant after a worker has stored its outcome and gone back to
    the head of its loop. *)
Lemma Inv_store_loop p k w f o :
  Inv env p → Pool.workers p !! k = Some w → holds w = Some f →
  o = settle env f →
  Inv env (with_workers (<[k := (loop env (store f o p)).1]>
                           (Pool.workers (loop env (store f o p)).2))
                        (loop env (store f o p)).2).
Proof.
  intros HI Hk Hh Ho.
  assert (Hin : w ∈ Pool.workers p) by (by eapply list_elem_of_lookup_2).
  assert (Htaken : taken env p f).
  { pose proof (inv_workers _ _ HI w Hin) as Hs.
    destruct w; simplify_eq/=; [done|by destruct Hs]. }
  destruct (Inv_store env p f o HI Htaken Ho) as [HI' Hwr].
  rewrite loop_workers. apply Inv_loop; [done|..]; simpl.
  - intros y Hy. by apply elem_of_insert_inv in Hy.
  - apply list_elem_of_insert. by eapply lookup_lt_Some.
  - intros y g Hy Hg.
    destruct (elem_of_insert_keep _ _ _ _ (loop env (store f o p)).1 Hy Hk)
      as [->|Hkept]; [left|by right].
    by simplify_eq.
Qed.

(** The two kinds of turn: the worker stores the outcome of its probe
    and goes back to the head of its loop, or it passes from the first
    [await] to the second. *)
Lemma resume_cases p k p' :
  Inv env p → resume env k p = Some p' →
  (∃ w f, Pool.workers p !! k = Some w ∧ holds w = Some f ∧
     p' = with_workers
            (<[k := (loop env (store f (settle env f) p)).1]>
               (Pool.workers (loop env (store f (settle env f) p)).2))
            (loop env (store f (settle env f) p)).2) ∨
  (∃ f res, Pool.workers p !! k = Some (AwaitFetch f) ∧
     Env.relayer env (Frame.idx f) (Frame.url f) = Resolved res ∧
     Response.ok res = true ∧
     p' = with_workers (<[k := AwaitJson f res]> (Pool.workers p)) p).
Proof.
  intros HI. unfold resume.
  destruct (Pool.workers p !! k) as [w|] eqn:Hk; [|done].
  assert (Hs : sound env p w).
  { apply (inv_workers _ _ HI). by eapply list_elem_of_lookup_2. }
  destruct w as [f|f res|]; simpl; [| |done].
  - destruct (Env.relayer env (Frame.idx f) (Frame.url f)) as [e|res] eqn:Er.
    + assert (Hset : settle env f = caught_failure f e)
        by (unfold settle; by rewrite Er).
      rewrite <- Hset. destruct (loop env _) as [w' p''] eqn:El.
      intros [= <-]. left. exists (AwaitFetch f), f. by rewrite El.
    + destruct (Response.ok res) eqn:Eok; simpl.
      * intros [= <-]. right. by exists f, res.
      * assert (Hset : settle env f = http_failure f res)
          by (unfold settle; by rewrite Er, Eok).
        rewrite <- Hset. destruct (loop env _) as [w' p''] eqn:El.
        intros [= <-]. left. exists (AwaitFetch f), f. by rewrite El.
  - destruct Hs as (_ & Er & Eok).
    destruct (Response.json res) as [e|jsonRaw] eqn:Ej.
    + assert (Hset : settle env f = caught_failure f e)
        by (unfold settle; by rewrite Er, Eok, Ej).
      rewrite <- Hset. destruct (loop env _) as [w' p''] eqn:El.
      intros [= <-]. left. exists (AwaitJson f res), f. by rewrite El.
    + assert (Hset : settle env f = rollup env f res jsonRaw)
        by (unfold settle; by rewrite Er, Eok, Ej).
      rewrite <- Hset. destruct (loop env _) as [w' p''] eqn:El.
      intros [= <-]. left. exists (AwaitJson f res), f. by rewrite El.
Qed.

Lemma Inv_resume p k p' :
  Inv env p → resume env k p = Some p' → Inv env p'.
Proof.
  intros HI Hr.
  destruct (resume_cases p k p' HI Hr)
    as [(w & f & Hk & Hh & ->)|(f & res & Hk & Er & Eok & ->)].
  - by eapply Inv_store_loop.
  - assert (Hin : AwaitFetch f ∈ Pool.workers p)
      by (by eapply list_elem_of_lookup_2).
    pose proof (inv_workers _ _ HI _ Hin) as Hs. simpl in Hs.
    apply Inv_workers; [done|..].
    + intros y [Hy| ->]%elem_of_insert_inv; [by apply HI|done].
    + intros y g Hy Hg. right.
      destruct (elem_of_insert_keep _ _ _ _ (AwaitJson f res) Hy Hk)
        as [->|Hkept]; [|by eauto].
      exists (AwaitJson f res). split; [|done].
      apply list_elem_of_insert. by eapply lookup_lt_Some.
Qed.

Lemma Inv_spawn count p : Inv env p → Inv env (spawn env count p).
Proof.
  revert p. induction count as [|count IH]; intros p HI; simpl; [done|].
  destruct (loop env p) as [w p'] eqn:El. apply IH.
  replace p' with (loop env p).2 by (by rewrite El).
  replace w with (loop env p).1 by (by rewrite El).
  rewrite loop_workers. apply Inv_loop; [done|..].
  - intros y [Hy|Hy%list_elem_of_singleton]%elem_of_app; by eauto.
  - apply elem_of_app. right. by apply list_elem_of_singleton.
  - intros y g Hy _. right. apply elem_of_app. by left.
Qed.

Lemma Inv_start : Inv env (start env).
Proof. apply Inv_spawn, Inv_idle. Qed.

Lemma Inv_run schedule p : Inv env p → Inv env (run env schedule p).
Proof.
  revert p. induction schedule as [|k rest IH]; intros p HI; simpl; [done|].
  apply IH. destruct (resume env k p) as [p'|] eqn:Hr; simpl; [|done].
  by eapply Inv_resume.
Qed.

(** ** The number of workers *)

Lemma spawn_workers_length count p :
  length (Pool.workers (spawn env count p)) =
  (length (Pool.workers p) + count)%nat.
Proof.
  revert p. induction count as [|count IH]; intros p; simpl; [lia|].
  destruct (loop env p) as [w p'] eqn:El. rewrite IH. simpl.
  replace p' with (loop env p).2 by (by rewrite El).
  rewrite length_app, loop_workers. simpl. lia.
Qed.

Lemma resume_workers_length k p p' :
  resume env k p = Some p' →
  length (Pool.workers p') = length (Pool.workers p).
Proof.
  unfold resume. destruct (Pool.workers p !! k) as [w|]; [|done].
  destruct (turn env w p) as [[w' p'']|] eqn:Et; [|done].
  intros [= <-]. simpl. rewrite length_insert.
  assert (Hloop : ∀ q, loop env q = (w', p'') →
            length (Pool.workers p'') = length (Pool.workers q)).
  { intros q Hq. by rewrite <- (loop_workers q), Hq. }
  destruct w as [f|f res|]; simpl in Et; [| |done].
  - destruct (Env.relayer env _ _) as [e|res].
    + injection Et as Et. by rewrite (Hloop _ Et).
    + destruct (negb (Response.ok res)).
      * injection Et as Et. by rewrite (Hloop _ Et).
      * by simplify_eq.
  - destruct (Response.json res);
      injection Et as Et; by rewrite (Hloop _ Et).
Qed.

Lemma run_workers_length schedule p :
  length (Pool.workers (run env schedule p)) = length (Pool.workers p).
Proof.
  revert p. induction schedule as [|k rest IH]; intros p; simpl; [done|].
  rewrite IH. destruct (resume env k p) as [p'|] eqn:Hr; simpl; [|done].
  by eapply resume_workers_length.
Qed.

Lemma start_workers_length : length (Pool.workers (start env)) = concurrency.
Proof. unfold start. by rewrite spawn_workers_length. Qed.

(** ** The pool when every worker has returned *)

Lemma settled_Returned p w :
  settled p = true → w ∈ Pool.workers p → w = Returned.
Proof.
  unfold settled. rewrite forallb_forall. intros Hall Hin.
  apply list_elem_of_In, Hall in Hin. by destruct w.
Qed.

Lemma settled_pool p :
  Inv env p → Pool.workers p ≠ [] → settled p = true →
  Pool.i p = length (networks env) ∧
  Pool.results p = imap (λ k n, Some (probe env k n)) (networks env) ∧
  Pool.requests p =
    imap (λ k n, (k, Frame.url (frame env k n))) (networks env).
Proof.
  intros HI Hne Hset.
  assert (Hi : Pool.i p = length (networks env)).
  { destruct (Pool.workers p) as [|w ws] eqn:Ew; [done|].
    assert (Hin : w ∈ Pool.workers p) by (rewrite Ew; left).
    pose proof (inv_workers _ _ HI w Hin) as Hs.
    by rewrite (settled_Returned p w Hset Hin) in Hs. }
  split; [done|]. split.
  - apply filled_array.
    + rewrite <- Hi. apply HI.
    + intros k n Hk.
      assert (Hlt : (k < Pool.i p)%nat)
        by (rewrite Hi; by eapply lookup_lt_Some).
      destruct (inv_covered _ _ HI k Hlt) as [[o Ho]|(w & f & Hin & Hh & _)].
      * destruct (inv_results _ _ HI k o Ho) as (n' & Hn' & ->). congruence.
      * by rewrite (settled_Returned p w Hset Hin) in Hh.
  - rewrite (inv_requests _ _ HI), Hi. by rewrite firstn_all.
Qed.

End Execution.

(* ===================================================================== *)
(** * Every worker returns                                                *)
(* ===================================================================== *)

Section Termination.

Context (env : Env.t).

Lemma sum_awaits_insert ws k w w' :
  ws !! k = Some w →
  (sum_list (awaits <$> <[k := w']> ws) + awaits w =
   sum_list (awaits <$> ws) + awaits w')%nat.
Proof.
  revert k. induction ws as [|x ws IH]; intros [|k] Hk; simplify_eq/=.
  - lia.
  - specialize (IH k Hk). lia.
Qed.

Lemma loop_remaining q :
  (2 * (length (networks env) - Pool.i (loop env q).2) + awaits (loop env q).1 =
   2 * (length (networks env) - Pool.i q))%nat.
Proof.
  unfold loop. destruct (networks env !! Pool.i q) as [n|] eqn:En; simpl.
  - apply lookup_lt_Some in En. lia.
  - lia.
Qed.

Lemma resume_remaining k p p' :
  Inv env p → resume env k p = Some p' → (remaining env p' < remaining env p)%nat.
Proof.
  intros HI Hr.
  destruct (resume_cases env p k p' HI Hr)
    as [(w & f & Hk & Hh & ->)|(f & res & Hk & _ & _ & ->)];
    unfold remaining; simpl.
  - pose proof (loop_remaining (store f (settle env f) p)) as Hl.
    rewrite loop_workers. simpl in *.
    pose proof (sum_awaits_insert _ _ _
                  (loop env (store f (settle env f) p)).1 Hk) as Hs.
    assert (1 ≤ awaits w)%nat by (destruct w; simplify_eq/=; lia).
    lia.
  - pose proof (sum_awaits_insert _ _ _ (AwaitJson f res) Hk) as Hs.
    simpl in Hs. lia.
Qed.

(** While [Promise.all] is pending, some worker can be resumed. *)
Lemma pool_progress p :
  settled p = false → ∃ k p', resume env k p = Some p'.
Proof.
  unfold settled, resume. intros Hs.
  assert (∃ k w, Pool.workers p !! k = Some w ∧ returned w = false)
    as (k & w & Hk & Hw).
  { induction (Pool.workers p) as [|x ws IH]; [done|]. simpl in Hs.
    destruct (returned x) eqn:Ex; simpl in Hs.
    - destruct (IH Hs) as (k & w & ? & ?). by exists (S k), w.
    - by exists 0%nat, x. }
  exists k. rewrite Hk. destruct w as [f|f res|]; simpl; [| |done].
  - destruct (Env.relayer env _ _) as [e|res].
    + destruct (loop env _); eauto.
    + destruct (negb _); [destruct (loop env _)|]; eauto.
  - destruct (Response.json res); destruct (loop env _); eauto.
Qed.

Lemma run_app s1 s2 p : run env (s1 ++ s2) p = run env s2 (run env s1 p).
Proof. revert p. induction s1 as [|k s1 IH]; intros p; simpl; [done|apply IH]. Qed.

(** From every pool there is a schedule after which every worker has
    returned; any schedule of turns of suspended workers is such a
    schedule once it cannot be extended, and it has at most [remaining]
    turns. *)
Lemma completes p : Inv env p → ∃ schedule, settled (run env schedule p) = true.
Proof.
  remember (remaining env p) as fuel eqn:Hf. revert p Hf.
  induction (lt_wf fuel) as [fuel _ IH]. intros p -> HI.
  destruct (settled p) eqn:Hs.
  - by exists [].
  - destruct (pool_progress p Hs) as (k & p' & Hr).
    destruct (IH (remaining env p') (resume_remaining k p p' HI Hr) p' eq_refl)
      as [schedule Hdone]; [by eapply Inv_resume|].
    exists (k :: schedule). simpl. by rewrite Hr.
Qed.

(** Every schedule extends to one under which [onRequest] responds. *)
Lemma onRequest_responds schedule :
  ∃ more snap, onRequest env (schedule ++ more) = Some snap.
Proof.
  destruct (completes (run env schedule (start env))) as [more Hdone].
  { apply Inv_run, Inv_start. }
  exists more. unfold onRequest. rewrite run_app, Hdone. eauto.
Qed.

(** The snapshot, when there is one, is the one of the probes. *)
Lemma onRequest_snapshot schedule snap :
  onRequest env schedule = Some snap →
  let p := run env schedule (start env) in
  snap = snapshot env p ∧
  Pool.i p = length (networks env) ∧
  Pool.results p = imap (λ k n, Some (probe env k n)) (networks env) ∧
  Pool.requests p =
    imap (λ k n, (k, Frame.url (frame env k n))) (networks env).
Proof.
  unfold onRequest. simpl.
  destruct (settled (run env schedule (start env))) eqn:Hs; [|done].
  intros [= <-]. split; [done|]. apply settled_pool; [|  |done].
  - apply Inv_run, Inv_start.
  - intros Hnil. apply (f_equal length) in Hnil.
    rewrite run_workers_length, start_workers_length in Hnil. done.
Qed.

Lemma onRequest_results schedule snap k n :
  onRequest env schedule = Some snap →
  networks env !! k = Some n →
  Snapshot.results snap !! k = Some (Some (probe env k n)).
Proof.
  intros (-> & _ & Hres & _)%onRequest_snapshot Hk. simpl.
  by rewrite Hres, list_lookup_imap, Hk.
Qed.

Lemma onRequest_results_inv schedule snap k o :
  onRequest env schedule = Some snap →
  Snapshot.results snap !! k = Some (Some o) →
  ∃ n, networks env !! k = Some n ∧ o = probe env k n.
Proof.
  intros (-> & _ & Hres & _)%onRequest_snapshot. simpl.
  rewrite Hres, list_lookup_imap.
  destruct (networks env !! k) as [n|]; simpl; [|done].
  intros [= <-]. eauto.
Qed.

End Termination.

(* ===================================================================== *)
(** * The outcome of a probe                                              *)
(* ===================================================================== *)

Section Probe.

Context (env : Env.t).

Lemma settle_network f : Outcome.network (settle env f) = Frame.n f.
Proof.
  unfold settle. destruct (Env.relayer env _ _) as [e|res]; [done|].
  destruct (negb _); [done|]. destruct (Response.json res); [done|].
  unfold rollup. by destruct (count_zero _ _ _).
Qed.

Lemma settle_nativeToken f :
  Outcome.nativeToken (settle env f) = nativeToken_of f.
Proof.
  unfold settle. destruct (Env.relayer env _ _) as [e|res]; [done|].
  destruct (negb _); [done|]. destruct (Response.json res); [done|].
  unfold rollup. by destruct (count_zero _ _ _).
Qed.

(** A probe succeeds exactly when the relayer answers in the 2xx range
    with a body that parses and of which the rollup does not throw. *)
Lemma settle_ok f :
  Outcome.ok (settle env f) = true →
  ∃ res jsonRaw zeroCount,
    Env.relayer env (Frame.idx f) (Frame.url f) = Resolved res ∧
    Response.ok res = true ∧ Response.json res = inr jsonRaw ∧
    count_zero env 0 (enrich (Frame.usdPrice f) <$> senders_of jsonRaw)
      = inr zeroCount ∧
    settle env f = success f res jsonRaw zeroCount.
Proof.
  unfold settle. destruct (Env.relayer env _ _) as [e|res]; [done|].
  destruct (Response.ok res) eqn:Eok; simpl; [|done].
  destruct (Response.json res) as [e|jsonRaw] eqn:Ej; [done|].
  unfold rollup.
  destruct (count_zero _ _ _) as [e|zeroCount] eqn:Ez; [done|].
  intros _. by exists res, jsonRaw, zeroCount.
Qed.

Lemma senders_of_enriched_payload jsonRaw es :
  senders_of (enriched_payload jsonRaw es) = es.
Proof.
  unfold senders_of, enriched_payload. simpl. by rewrite lookup_insert_eq.
Qed.

Lemma enrichedSenders_success f res jsonRaw zeroCount :
  enrichedSenders (success f res jsonRaw zeroCount) =
  enrich (Frame.usdPrice f) <$> senders_of jsonRaw.
Proof. unfold enrichedSenders. simpl. apply senders_of_enriched_payload. Qed.

Lemma usdValue_enrich price s :
  usdValue (enrich price s) =
  Some match price with
       | Some price' => JNum (Num.mul (bal s) price')
       | None => JNull
       end.
Proof. unfold usdValue, enrich. simpl. by rewrite lookup_insert_eq. Qed.

(** No array index is the key [etherBalance]. *)
Lemma index_key_not_etherBalance i : index_key i ≠ "etherBalance".
Proof.
  unfold index_key, decimal. by destruct (N.to_uint (N.of_nat i)).
Qed.

Lemma indexed_etherBalance {A} (l : list A) : indexed l !! "etherBalance" = None.
Proof.
  unfold indexed. apply not_elem_of_list_to_map_1.
  intros [[key v] [Hkey Hin]]%list_elem_of_fmap.
  apply list_elem_of_lookup_1 in Hin as [i Hi].
  rewrite list_lookup_imap in Hi.
  destruct (l !! i); simplify_eq/=.
  by eapply index_key_not_etherBalance.
Qed.

(** Enrichment leaves the [etherBalance] of a sender as it was. *)
Lemma etherBalance_enrich price s :
  get_prop (enrich price s) "etherBalance" = get_prop s "etherBalance".
Proof.
  unfold enrich. simpl. rewrite lookup_insert_ne by done.
  destruct s as [| | | |items|fields]; simpl;
    rewrite ?lookup_empty, ?indexed_etherBalance; done.
Qed.


End Probe.






(* ===================================================================== *)
(** * The snapshot                                                        *)
(* ===================================================================== *)

(** C1.  Every snapshot has exactly one outcome per network of the
    registry, the outcome at index [i] is the one of the network at index
    [i], whatever the order in which the probes complete (any other
    schedule gives the same list), and [count] is the length of the
    list. *)
Theorem snapshot_one_outcome_per_network env schedule snap :
  onRequest env schedule = Some snap →
  length (Snapshot.results snap) = length (Env.ALL env) ∧
  (∀ i n, Env.ALL env !! i = Some n →
     ∃ o, Snapshot.results snap !! i = Some (Some o) ∧ Outcome.network o = n) ∧
  (∀ schedule' snap', onRequest env schedule' = Some snap' →
     Snapshot.results snap' = Snapshot.results snap) ∧
  Snapshot.count snap = length (Snapshot.results snap).
Proof.
  intros Hsnap.
  destruct (onRequest_snapshot env schedule snap Hsnap) as (-> & _ & Hres & _).
  simpl. repeat split.
  - rewrite Hres. apply length_imap.
  - intros i n Hn. exists (probe env i n). split.
    + by apply (onRequest_results env schedule _ i n Hsnap).
    + apply settle_network.
  - intros schedule' snap' Hsnap'.
    destruct (onRequest_snapshot env schedule' snap' Hsnap') as (-> & _ & Hres' & _).
    simpl. by rewrite Hres, Hres'.
Qed.

Lemma snapshot_one_outcome_per_network_example :
  let snap := example_snapshot example_env example_schedule in
  length (Snapshot.results snap) = 4%nat ∧
  (∀ i n, example_networks !! i = Some n →
     ∃ o, Snapshot.results snap !! i = Some (Some o) ∧ Outcome.network o = n) ∧
  (∀ schedule' snap', onRequest example_env schedule' = Some snap' →
     Snapshot.results snap' = Snapshot.results snap) ∧
  Snapshot.count snap = length (Snapshot.results snap).
Proof.
  apply (snapshot_one_outcome_per_network example_env example_schedule).
  vm_compute. reflexivity.
Defined.

(* ===================================================================== *)
(** * The native token of an outcome                                      *)
(* ===================================================================== *)

Lemma needed_snoc l x : needed (l ++ [x]) = note_network (needed l) x.
Proof. unfold needed. by rewrite foldl_app. Qed.

(** With unique names, the identifier stored under the name of a network
    is the one its symbol resolves to. *)
Lemma coinGeckoId_resolved registry i n :
  NoDup (Network.name <$> registry) →
  registry !! i = Some n →
  mjoin (Needed.coinGeckoIdByNetworkName (needed registry) !! Network.name n)
  = resolve n.
Proof.
  revert i n. induction registry as [|x l IH] using rev_ind; intros i n Hnd Hi;
    [done|].
  rewrite needed_snoc. simpl.
  rewrite fmap_app in Hnd. apply NoDup_app in Hnd as (Hl & Hfresh & _).
  destruct (decide (i < length l)) as [Hlt|Hge].
  - rewrite lookup_app_l in Hi by done.
    rewrite lookup_insert_ne; [by eapply IH|].
    intros Heq. apply (Hfresh (Network.name n)).
    + apply list_elem_of_fmap. exists n. split; [done|].
      by eapply list_elem_of_lookup_2.
    + rewrite <- Heq. simpl. left.
  - rewrite lookup_app_r in Hi by lia.
    destruct (i - length l) as [|j]; simplify_eq/=.
    by rewrite lookup_insert_eq.
Qed.

(** The identifiers of the table are not empty. *)
Lemma COINGECKO_ID_truthy sym id :
  COINGECKO_ID_BY_SYMBOL !! sym = Some id → truthy id = true.
Proof.
  intros H. apply elem_of_list_to_map_2 in H.
  repeat (apply elem_of_cons in H as [H|H]; [by simplify_eq|]).
  by apply elem_of_nil in H.
Qed.

Lemma resolve_truthy n id : resolve n = Some id → truthy id = true.
Proof.
  unfold resolve. destruct (Network.nativeCurrency n) as [c|]; [|done].
  destruct (truthy _); [|done]. apply COINGECKO_ID_truthy.
Qed.




Example failed_outcome_nativeToken :
  Outcome.ok (probe example_env 1 (example_network "arbitrum" 42161 (Some ether)))
    = false ∧
  Outcome.nativeToken
    (probe example_env 1 (example_network "arbitrum" 42161 (Some ether)))
  = {| NativeToken.symbol := Some "ETH";
       NativeToken.name := Some "Ether";
       NativeToken.coinGeckoId := Some "ethereum";
       NativeToken.usdPrice := Some 2000%float |}.
Proof. split; vm_compute; reflexivity. Qed.

(* ===================================================================== *)
(** * The fan-out                                                         *)
(* ===================================================================== *)

Section FanOut.

Context (env : Env.t).

Lemma spawn_results count p :
  Pool.results (spawn env count p) = Pool.results p.
Proof.
  revert p. induction count as [|count IH]; intros p; simpl; [done|].
  unfold loop. destruct (networks env !! Pool.i p); by rewrite IH.
Qed.

(** Of [count] new workers, as many are suspended at a probe as there are
    indices left, and the others have returned. *)
Lemma spawn_suspended count p :
  (Pool.i p ≤ length (networks env))%nat →
  length (suspended (Pool.workers (spawn env count p))) =
  (length (suspended (Pool.workers p)) +
   count `min` (length (networks env) - Pool.i p))%nat.
Proof.
  revert p. induction count as [|count IH]; intros p Hi; [simpl; lia|].
  cbn [spawn]. unfold loop.
  destruct (networks env !! Pool.i p) as [n|] eqn:En.
  - apply lookup_lt_Some in En. rewrite IH by (simpl; lia).
    unfold suspended, with_workers. cbn [Pool.i Pool.workers].
    rewrite filter_app, length_app.
    rewrite filter_cons_True by done. rewrite filter_nil.
    cbn [length]. lia.
  - apply lookup_ge_None_1 in En. rewrite IH by (simpl; lia).
    unfold suspended, with_workers. cbn [Pool.i Pool.workers].
    rewrite filter_app, length_app.
    rewrite filter_cons_False by done. rewrite filter_nil.
    cbn [length]. lia.
Qed.

End FanOut.

(** C2, as the code has it.  [onRequest] calls [worker] exactly
    [concurrency] times, whatever the number of networks; of these
    workers, [min concurrency (length networks)] take a network at once
    and the others return without a probe.  The workers share the cursor
    [i]: at any time the calls of [fetch] made so far are those for the
    indices below [i], one for each, in order; and when every worker has
    returned, [i] is the length of the registry, so that each network has
    been probed exactly once. *)
Theorem pool_spawns_concurrency_workers env :
  length (Pool.workers (start env)) = concurrency ∧
  length (suspended (Pool.workers (start env)))
    = concurrency `min` length (Env.ALL env) ∧
  ∀ schedule,
    let p := run env schedule (start env) in
    length (Pool.workers p) = concurrency ∧
    Pool.requests p =
      imap (λ k n, (k, status_url n)) (take (Pool.i p) (Env.ALL env)) ∧
    (settled p = true →
       Pool.i p = length (Env.ALL env) ∧
       Pool.requests p = imap (λ k n, (k, status_url n)) (Env.ALL env)).
Proof.
  split; [apply start_workers_length|]. split.
  - unfold start. rewrite spawn_suspended by (simpl; lia).
    unfold idle, suspended, networks. cbn [Pool.workers Pool.i].
    rewrite filter_nil. cbn [length]. lia.
  - intros schedule p. subst p.
    pose proof (Inv_run env schedule _ (Inv_start env)) as HI.
    split; [by rewrite run_workers_length, start_workers_length|].
    split; [apply (inv_requests _ _ HI)|].
    intros Hs.
    destruct (settled_pool env _ HI) as (Hi & _ & Hreq); [|done|done].
    intros Hnil. apply (f_equal length) in Hnil.
    by rewrite run_workers_length, start_workers_length in Hnil.
Qed.

(** C2, as the spec has it, fails for a registry of one network: twelve
    workers are spawned, not one. *)
Lemma pool_size_is_not_the_minimum :
  length (Pool.workers (start example_env_single))
  ≠ concurrency `min` length (Env.ALL example_env_single).
Proof. vm_compute. discriminate. Qed.

(** C7, as the code has it.  [results] is created empty and is still
    empty when the workers have been started; it grows as the slots are
    assigned, never beyond the indices taken nor the number of networks,
    and has one slot per network when every worker has returned. *)
Theorem results_grow_on_assignment env :
  Pool.results idle = [] ∧
  Pool.results (start env) = [] ∧
  ∀ schedule,
    let p := run env schedule (start env) in
    (length (Pool.results p) ≤ Pool.i p)%nat ∧
    (Pool.i p ≤ length (Env.ALL env))%nat ∧
    (settled p = true → length (Pool.results p) = length (Env.ALL env)).
Proof.
  split; [done|]. split; [apply spawn_results|].
  intros schedule p. subst p.
  pose proof (Inv_run env schedule _ (Inv_start env)) as HI.
  split; [apply HI|]. split; [apply HI|].
  intros Hs.
  destruct (settled_pool env _ HI) as (_ & Hres & _); [|done|].
  - intros Hnil. apply (f_equal length) in Hnil.
    by rewrite run_workers_length, start_workers_length in Hnil.
  - rewrite Hres. apply length_imap.
Qed.

(** C7, as the spec has it, fails for a registry of one network: before
    the workers start, and when they have been started, [results] has no
    slot. *)
Lemma results_is_not_presized :
  length (Pool.results idle) ≠ length (Env.ALL example_env_single) ∧
  length (Pool.results (start example_env_single))
  ≠ length (Env.ALL example_env_single).
Proof. split; vm_compute; discriminate. Qed.

(* ===================================================================== *)
(** * Successful outcomes                                                 *)
(* ===================================================================== *)

Section Successful.

Context (env : Env.t).


Lemma settle_http_failure f res :
  Env.relayer env (Frame.idx f) (Frame.url f) = Resolved res →
  Response.ok res = false →
  settle env f = http_failure f res.
Proof. intros Er Eok. unfold settle. by rewrite Er, Eok. Qed.

Lemma settle_rejected f e :
  Env.relayer env (Frame.idx f) (Frame.url f) = Rejected e →
  settle env f = caught_failure f e.
Proof. intros Er. unfold settle. by rewrite Er. Qed.


(** A successful outcome of a snapshot is the one built from the payload
    the relayer of its network answered, of which the rollup did not
    throw. *)
Lemma successful_rollup schedule snap i o :
  onRequest env schedule = Some snap →
  Snapshot.results snap !! i = Some (Some o) →
  Outcome.ok o = true →
  ∃ n res jsonRaw zeroCount,
    Env.ALL env !! i = Some n ∧
    Env.relayer env i (status_url n) = Resolved res ∧
    Response.ok res = true ∧ Response.json res = inr jsonRaw ∧
    count_zero env 0
      (enrich (Frame.usdPrice (frame env i n)) <$> senders_of jsonRaw)
      = inr zeroCount ∧
    o = success (frame env i n) res jsonRaw zeroCount.
Proof.
  intros Hsnap Ho Hok.
  destruct (onRequest_results_inv env schedule snap i o Hsnap Ho)
    as (n & Hn & ->).
  destruct (settle_ok env _ Hok)
    as (res & jsonRaw & zeroCount & Er & Eok & Ej & Hz & Hs).
  by exists n, res, jsonRaw, zeroCount.
Qed.

Lemma successful_outcome schedule snap i o :
  onRequest env schedule = Some snap →
  Snapshot.results snap !! i = Some (Some o) →
  Outcome.ok o = true →
  ∃ n res jsonRaw zeroCount,
    Env.ALL env !! i = Some n ∧
    Env.relayer env i (status_url n) = Resolved res ∧
    Response.ok res = true ∧ Response.json res = inr jsonRaw ∧
    o = success (frame env i n) res jsonRaw zeroCount.
Proof.
  intros Hsnap Ho Hok.
  destruct (successful_rollup schedule snap i o Hsnap Ho Hok)
    as (n & res & jsonRaw & zeroCount & Hn & Er & Eok & Ej & _ & ->).
  by exists n, res, jsonRaw, zeroCount.
Qed.

End Successful.

(** C5.  In a successful outcome whose network has no known price, the
    [usdValue] of every sender, [totalUsd] and [minUsd] are [null]: not a
    number, so neither NaN nor zero.  When the price is known, the
    [usdValue] of each sender is the product of its native balance and
    the price: of the [etherBalance] the sender has in the payload when
    that is a number, and of 0 when it is not.  The enriched sender has
    the [etherBalance] of the sender. *)
Theorem usd_fields_follow_the_price env schedule snap i o :
  onRequest env schedule = Some snap →
  Snapshot.results snap !! i = Some (Some o) →
  Outcome.ok o = true →
  ∃ n res jsonRaw summary,
    Env.ALL env !! i = Some n ∧
    Env.relayer env i (status_url n) = Resolved res ∧
    Response.json res = inr jsonRaw ∧
    Outcome.summary o = Some summary ∧
    match NativeToken.usdPrice (Outcome.nativeToken o) with
    | None =>
        Forall2 (λ sender enriched,
                   get_prop enriched "usdValue" = Some JNull)
                (senders_of jsonRaw) (enrichedSenders o) ∧
        Summary.totalUsd summary = None ∧
        Summary.minUsd summary = None
    | Some price =>
        Forall2 (λ sender enriched,
                   get_prop enriched "etherBalance"
                     = get_prop sender "etherBalance" ∧
                   (∀ x, get_prop sender "etherBalance" = Some (JNum x) →
                      get_prop enriched "usdValue"
                        = Some (JNum (PrimFloat.mul x price))) ∧
                   ((∀ x, get_prop sender "etherBalance" ≠ Some (JNum x)) →
                      get_prop enriched "usdValue"
                        = Some (JNum (PrimFloat.mul PrimFloat.zero price))))
                (senders_of jsonRaw) (enrichedSenders o)
    end.
Proof.
  intros Hsnap Ho Hok.
  destruct (successful_outcome env schedule snap i o Hsnap Ho Hok)
    as (n & res & jsonRaw & zeroCount & Hn & Er & _ & Ej & ->).
  exists n, res, jsonRaw. eexists. repeat split; [done..|].
  rewrite enrichedSenders_success.
  generalize (frame env i n). intros f. simpl.
  destruct (Frame.usdPrice f) as [price|].
  - apply Forall2_fmap_r, Forall_Forall2_diag, Forall_forall.
    intros s _. split; [apply etherBalance_enrich|]. split.
    + intros x Hx. fold (usdValue (enrich (Some price) s)).
      rewrite usdValue_enrich. unfold bal. by rewrite Hx.
    + intros Hno. fold (usdValue (enrich (Some price) s)).
      rewrite usdValue_enrich. unfold bal.
      destruct (get_prop s "etherBalance") as [[| |x| | |]|]; try done.
      by destruct (Hno x).
  - repeat split.
    apply Forall2_fmap_r, Forall_Forall2_diag, Forall_forall.
    intros s _. apply (usdValue_enrich None).
Qed.

(** The outcome of the first network of the example: with the price of
    its currency, and without. *)
Lemma usd_fields_follow_the_price_example :
  (let o := probe example_env 0 (example_network "mainnet" 1 (Some ether)) in
   ∃ n res jsonRaw summary,
     Env.ALL example_env !! 0%nat = Some n ∧
     Env.relayer example_env 0 (status_url n) = Resolved res ∧
     Response.json res = inr jsonRaw ∧
     Outcome.summary o = Some summary ∧
     match NativeToken.usdPrice (Outcome.nativeToken o) with
     | None =>
         Forall2 (λ sender enriched,
                    get_prop enriched "usdValue" = Some JNull)
                 (senders_of jsonRaw) (enrichedSenders o) ∧
         Summary.totalUsd summary = None ∧
         Summary.minUsd summary = None
     | Some price =>
         Forall2 (λ sender enriched,
                    get_prop enriched "etherBalance"
                      = get_prop sender "etherBalance" ∧
                    (∀ x, get_prop sender "etherBalance" = Some (JNum x) →
                       get_prop enriched "usdValue"
                         = Some (JNum (PrimFloat.mul x price))) ∧
                    ((∀ x, get_prop sender "etherBalance" ≠ Some (JNum x)) →
                       get_prop enriched "usdValue"
                         = Some (JNum (PrimFloat.mul PrimFloat.zero price))))
                 (senders_of jsonRaw) (enrichedSenders o)
     end) ∧
  (let o := probe example_env_unpriced 0
              (example_network "mainnet" 1 (Some ether)) in
   ∃ n res jsonRaw summary,
     Env.ALL example_env_unpriced !! 0%nat = Some n ∧
     Env.relayer example_env_unpriced 0 (status_url n) = Resolved res ∧
     Response.json res = inr jsonRaw ∧
     Outcome.summary o = Some summary ∧
     match NativeToken.usdPrice (Outcome.nativeToken o) with
     | None =>
         Forall2 (λ sender enriched,
                    get_prop enriched "usdValue" = Some JNull)
                 (senders_of jsonRaw) (enrichedSenders o) ∧
         Summary.totalUsd summary = None ∧
         Summary.minUsd summary = None
     | Some price =>
         Forall2 (λ sender enriched,
                    get_prop enriched "etherBalance"
                      = get_prop sender "etherBalance" ∧
                    (∀ x, get_prop sender "etherBalance" = Some (JNum x) →
                       get_prop enriched "usdValue"
                         = Some (JNum (PrimFloat.mul x price))) ∧
                    ((∀ x, get_prop sender "etherBalance" ≠ Some (JNum x)) →
                       get_prop enriched "usdValue"
                         = Some (JNum (PrimFloat.mul PrimFloat.zero price))))
                 (senders_of jsonRaw) (enrichedSenders o)
     end).
Proof.
  split.
  - apply (usd_fields_follow_the_price example_env example_schedule
             (example_snapshot example_env example_schedule) 0%nat);
      vm_compute; reflexivity.
  - apply (usd_fields_follow_the_price example_env_unpriced example_schedule
             (example_snapshot example_env_unpriced example_schedule) 0%nat);
      vm_compute; reflexivity.
Defined.

Example priced_senders :
  usdValue <$> enrichedSenders
    (probe example_env 0 (example_network "mainnet" 1 (Some ether)))
  = [Some (JNum 1000); Some (JNum 0)].
Proof. vm_compute. reflexivity. Qed.

Example unpriced_senders :
  let o := probe example_env_unpriced 0 (example_network "mainnet" 1 (Some ether)) in
  Outcome.ok o = true ∧
  usdValue <$> enrichedSenders o = [Some JNull; Some JNull] ∧
  Summary.totalUsd <$> Outcome.summary o = Some None ∧
  Summary.minUsd <$> Outcome.summary o = Some None ∧
  Summary.totalNative <$> Outcome.summary o = Some 0.5%float.
Proof. vm_compute. repeat split; reflexivity. Qed.

(** C6.  In a successful outcome, [minNative] is [null] exactly when the
    list of enriched senders is empty; a payload whose [senders] is absent
    or is not a list gives no enriched sender, a count of zero and a
    [null] minimum; otherwise [minNative] is the native balance of a
    sender of the list and is at most the native balance of every sender
    of the list, the native balance of a sender being its [etherBalance]
    when that is a number and 0 when it is not.  The balances are those
    of a parsed payload: none is NaN. *)
Theorem minNative_is_the_least_balance env schedule snap i o :
  onRequest env schedule = Some snap →
  Snapshot.results snap !! i = Some (Some o) →
  Outcome.ok o = true →
  Forall (λ s, ∀ x, get_prop s "etherBalance" = Some (JNum x) →
                    PrimFloat.is_nan x = false)
         (enrichedSenders o) →
  ∃ n res jsonRaw summary,
    Env.ALL env !! i = Some n ∧
    Env.relayer env i (status_url n) = Resolved res ∧
    Response.json res = inr jsonRaw ∧
    Outcome.summary o = Some summary ∧
    Summary.senderCount summary = length (enrichedSenders o) ∧
    (Summary.minNative summary = None ↔ enrichedSenders o = []) ∧
    ((∀ items, get_prop jsonRaw "senders" ≠ Some (JArr items)) →
       enrichedSenders o = [] ∧
       Summary.senderCount summary = 0%nat ∧
       Summary.minNative summary = None) ∧
    (∀ least, Summary.minNative summary = Some least →
       (∃ s, s ∈ enrichedSenders o ∧
             match get_prop s "etherBalance" with
             | Some (JNum x) => least = x
             | _ => least = PrimFloat.zero
             end) ∧
       (∀ s, s ∈ enrichedSenders o →
             match get_prop s "etherBalance" with
             | Some (JNum x) => PrimFloat.leb least x = true
             | _ => PrimFloat.leb least PrimFloat.zero = true
             end)).
Proof.
  intros Hsnap Ho Hok Hnan.
  destruct (successful_outcome env schedule snap i o Hsnap Ho Hok)
    as (n & res & jsonRaw & zeroCount & Hn & Er & _ & Ej & ->).
  exists n, res, jsonRaw. eexists.
  do 4 (split; [done|]).
  rewrite enrichedSenders_success in *. simpl.
  split; [by rewrite length_fmap|].
  split; [split; [by destruct (senders_of jsonRaw)|
                  intros ->; by destruct (senders_of jsonRaw)]|].
  split.
  - intros Hno.
    assert (Hnone : senders_of jsonRaw = []).
    { unfold senders_of.
      destruct (get_prop jsonRaw "senders") as [[]|] eqn:E; try done.
      by destruct (Hno items). }
    by rewrite Hnone.
  - intros least Hleast.
    destruct (enrich _ <$> senders_of jsonRaw) as [|s l] eqn:El; [done|].
    assert (Hl : Num.Math_min (bal <$> s :: l) = least)
      by (by injection Hleast).
    clear Hleast.
    assert (Hmin := Math_min_spec (bal <$> s :: l)).
    rewrite Hl in Hmin.
    destruct Hmin as [Hin Hle]; [done| |].
    { apply Forall_fmap. eapply Forall_impl; [exact Hnan|].
      intros s' Hs'. simpl. unfold bal.
      destruct (get_prop s' "etherBalance") as [[| |x| | |]|] eqn:Ex;
        try done.
      exact (Hs' x Ex). }
    split.
    + apply list_elem_of_fmap in Hin as (s' & Hs' & Hin'). exists s'.
      split; [done|]. rewrite Hs'. unfold bal.
      by destruct (get_prop s' "etherBalance") as [[| |x| | |]|].
    + intros s' Hin2.
      assert (Hb : Num.leb least (bal s') = true).
      { apply Hle, list_elem_of_fmap. eauto. }
      revert Hb. unfold bal.
      by destruct (get_prop s' "etherBalance") as [[| |x| | |]|].
Qed.

(** The outcome of the first network of the example. *)
Lemma minNative_is_the_least_balance_example :
  let o := probe example_env 0 (example_network "mainnet" 1 (Some ether)) in
  ∃ n res jsonRaw summary,
    Env.ALL example_env !! 0%nat = Some n ∧
    Env.relayer example_env 0 (status_url n) = Resolved res ∧
    Response.json res = inr jsonRaw ∧
    Outcome.summary o = Some summary ∧
    Summary.senderCount summary = length (enrichedSenders o) ∧
    (Summary.minNative summary = None ↔ enrichedSenders o = []) ∧
    ((∀ items, get_prop jsonRaw "senders" ≠ Some (JArr items)) →
       enrichedSenders o = [] ∧
       Summary.senderCount summary = 0%nat ∧
       Summary.minNative summary = None) ∧
    (∀ least, Summary.minNative summary = Some least →
       (∃ s, s ∈ enrichedSenders o ∧
             match get_prop s "etherBalance" with
             | Some (JNum x) => least = x
             | _ => least = PrimFloat.zero
             end) ∧
       (∀ s, s ∈ enrichedSenders o →
             match get_prop s "etherBalance" with
             | Some (JNum x) => PrimFloat.leb least x = true
             | _ => PrimFloat.leb least PrimFloat.zero = true
             end)).
Proof.
  apply (minNative_is_the_least_balance example_env example_schedule
           (example_snapshot example_env example_schedule) 0%nat).
  - vm_compute. reflexivity.
  - vm_compute. reflexivity.
  - vm_compute. reflexivity.
  - repeat constructor; intros x Hx; vm_compute in Hx;
      [injection Hx as <-; reflexivity | discriminate].
Defined.

(** A sender without a balance counts for 0, which is then the least. *)
Example least_balance :
  let o := probe example_env 0 (example_network "mainnet" 1 (Some ether)) in
  bal <$> enrichedSenders o = [0.5%float; 0%float] ∧
  Summary.minNative <$> Outcome.summary o = Some (Some 0%float) ∧
  Summary.senderCount <$> Outcome.summary o = Some 2%nat.
Proof. vm_compute. repeat split; reflexivity. Qed.

(** A payload without [senders]. *)
Example no_senders :
  let o := probe example_env 3 (example_network "base" 8453 (Some ether)) in
  Outcome.ok o = true ∧
  enrichedSenders o = [] ∧
  Summary.senderCount <$> Outcome.summary o = Some 0%nat ∧
  Summary.minNative <$> Outcome.summary o = Some None.
Proof. vm_compute. repeat split; reflexivity. Qed.



Example data_keeps_the_other_fields :
  let data := Outcome.data
    (probe example_env 0 (example_network "mainnet" 1 (Some ether))) in
  (data ≫= λ d, get_prop d "healthOK") = Some (JBool true) ∧
  (data ≫= λ d, get_prop d "ver") = Some (JStr "v1") ∧
  (data ≫= λ d, get_prop d "uptime") = None.
Proof. vm_compute. repeat split; reflexivity. Qed.



(** The second sender of the example has no balance. *)
Example sender_without_balance :
  let o := probe example_env 0 (example_network "mainnet" 1 (Some ether)) in
  (senders_of example_payload !! 1%nat ≫= λ s, get_prop s "etherBalance") = None ∧
  (enrichedSenders o !! 1%nat ≫= usdValue) = Some (JNum 0).
Proof. vm_compute. split; reflexivity. Qed.


(* ===================================================================== *)
(** * Failures                                                            *)
(* ===================================================================== *)

(** The probe of a network depends on the environment only through the
    registry, the price lookup, [ToNumber] and the answer of the relayer
    to this probe. *)
Lemma count_zero_ToNumber env env' acc senders :
  Env.ToNumber env' = Env.ToNumber env →
  count_zero env' acc senders = count_zero env acc senders.
Proof.
  intros Hnum. revert acc. induction senders as [|s l IH]; intros acc; [done|].
  simpl. unfold at_most_zero. rewrite Hnum.
  by destruct (get_prop s "etherBalance") as [[| | | |items|fields]|];
    try destruct (coercible _).
Qed.

Lemma probe_differ_only_at i env env' j n :
  differ_only_at i env env' → j ≠ i → probe env' j n = probe env j n.
Proof.
  intros (HALL & Hkey & Hfeed & Hnum & Hrel) Hj.
  assert (Hzero : ∀ acc senders,
            count_zero env' acc senders = count_zero env acc senders)
    by (intros; by apply count_zero_ToNumber).
  destruct env as [ALL key feed relayer now ToNumber].
  destruct env' as [ALL' key' feed' relayer' now' ToNumber'].
  simpl in *. subst ALL' key' feed' ToNumber'.
  unfold probe, settle, rollup. simpl. rewrite Hrel by done.
  destruct (relayer j _) as [e|res]; [done|].
  destruct (negb _); [done|].
  destruct (Response.json res) as [e|jsonRaw]; [done|].
  by rewrite Hzero.
Qed.

(** C4.  A response outside the 2xx range gives a failure with the status
    of the response and the description [HTTP] followed by that status,
    without [data] and [summary]; [res.json()] is awaited only on a
    response in the 2xx range.  A fault of the transport gives a failure
    with the status 0 and the message of the fault as description.  The
    failure is stored in the slot of its network; the other slots are
    what they would be with any other answer to this probe. *)
Theorem failures_are_recorded_per_network env schedule snap i n :
  onRequest env schedule = Some snap →
  Env.ALL env !! i = Some n →
  (∀ res,
     Env.relayer env i (status_url n) = Resolved res →
     Response.ok res = false →
     ∃ o, Snapshot.results snap !! i = Some (Some o) ∧
       Outcome.ok o = false ∧
       Outcome.status o = Response.status res ∧
       Outcome.error o = Some ("HTTP " +:+ decimal (Response.status res)) ∧
       Outcome.data o = None ∧ Outcome.summary o = None) ∧
  (∀ e,
     Env.relayer env i (status_url n) = Rejected e →
     ∃ o, Snapshot.results snap !! i = Some (Some o) ∧
       Outcome.ok o = false ∧
       Outcome.status o = 0%N ∧
       Outcome.error o = Some (describe e) ∧
       (∀ name message, e = JsError name message →
          Outcome.error o = Some message) ∧
       Outcome.data o = None ∧ Outcome.summary o = None) ∧
  (∀ turns f res,
     AwaitJson f res ∈ Pool.workers (run env turns (start env)) →
     Response.ok res = true) ∧
  (∀ env' schedule' snap',
     differ_only_at i env env' →
     onRequest env' schedule' = Some snap' →
     ∀ j, j ≠ i → Snapshot.results snap' !! j = Snapshot.results snap !! j).
Proof.
  intros Hsnap Hn.
  pose proof (onRequest_results env schedule snap i n Hsnap Hn) as Ho.
  unfold probe in Ho. split; [|split; [|split]].
  - intros res Er Eok.
    rewrite (settle_http_failure env (frame env i n) res Er Eok) in Ho.
    eexists. split; [exact Ho|]. done.
  - intros e Er.
    rewrite (settle_rejected env (frame env i n) e Er) in Ho.
    eexists. split; [exact Ho|]. repeat split. by intros name message ->.
  - intros turns f res Hin.
    pose proof (Inv_run env turns _ (Inv_start env)) as HI.
    by destruct (inv_workers _ _ HI _ Hin) as (_ & _ & Eok).
  - intros env' schedule' snap' Hdiff Hsnap' j Hj.
    destruct (onRequest_snapshot env schedule snap Hsnap) as (-> & _ & Hres & _).
    destruct (onRequest_snapshot env' schedule' snap' Hsnap')
      as (-> & _ & Hres' & _).
    simpl. rewrite Hres, Hres', !list_lookup_imap.
    unfold networks. destruct Hdiff as (HALL & Hrest). rewrite HALL.
    destruct (Env.ALL env !! j) as [m|]; simpl; [|done].
    by rewrite (probe_differ_only_at i env env' j m (conj HALL Hrest) Hj).
Qed.

(** The second network of the example answers 503. *)
Lemma failures_are_recorded_per_network_example :
  let snap := example_snapshot example_env example_schedule in
  let n := example_network "arbitrum" 42161 (Some ether) in
  (∀ res,
     Env.relayer example_env 1 (status_url n) = Resolved res →
     Response.ok res = false →
     ∃ o, Snapshot.results snap !! 1%nat = Some (Some o) ∧
       Outcome.ok o = false ∧
       Outcome.status o = Response.status res ∧
       Outcome.error o = Some ("HTTP " +:+ decimal (Response.status res)) ∧
       Outcome.data o = None ∧ Outcome.summary o = None) ∧
  (∀ e,
     Env.relayer example_env 1 (status_url n) = Rejected e →
     ∃ o, Snapshot.results snap !! 1%nat = Some (Some o) ∧
       Outcome.ok o = false ∧
       Outcome.status o = 0%N ∧
       Outcome.error o = Some (describe e) ∧
       (∀ name message, e = JsError name message →
          Outcome.error o = Some message) ∧
       Outcome.data o = None ∧ Outcome.summary o = None) ∧
  (∀ turns f res,
     AwaitJson f res ∈ Pool.workers (run example_env turns (start example_env)) →
     Response.ok res = true) ∧
  (∀ env' schedule' snap',
     differ_only_at 1 example_env env' →
     onRequest env' schedule' = Some snap' →
     ∀ j, j ≠ 1%nat → Snapshot.results snap' !! j = Snapshot.results snap !! j).
Proof.
  apply (failures_are_recorded_per_network example_env example_schedule);
    vm_compute; reflexivity.
Defined.

Example http_failure_outcome :
  let o := probe example_env 1 (example_network "arbitrum" 42161 (Some ether)) in
  Outcome.ok o = false ∧ Outcome.status o = 503%N ∧
  Outcome.error o = Some "HTTP 503" ∧
  Outcome.data o = None ∧ Outcome.summary o = None.
Proof. vm_compute. repeat split; reflexivity. Qed.

Example transport_failure_outcome :
  let o := probe example_env 2 (example_network "nowhere" 7 None) in
  Outcome.ok o = false ∧ Outcome.status o = 0%N ∧
  Outcome.error o = Some "fetch failed" ∧
  Outcome.data o = None ∧ Outcome.summary o = None.
Proof. vm_compute. repeat split; reflexivity. Qed.

(** Without a price table, no frame has a price. *)
Lemma unpriced_frame env i n :
  pricesUsd env = ∅ → Frame.usdPrice (frame env i n) = None.
Proof.
  intros Hempty. unfold frame. simpl. rewrite Hempty.
  destruct (mjoin _) as [id|]; [|done].
  destruct (truthy id); [apply lookup_empty|done].
Qed.



Example unpriced_snapshot :
  let snap := example_snapshot example_env_unpriced example_schedule in
  onRequest example_env_unpriced example_schedule = Some snap ∧
  Pricing.error (Snapshot.pricing snap) = Some "CoinGecko HTTP 429" ∧
  Pricing.idsRequested (Snapshot.pricing snap) = ["ethereum"] ∧
  Pricing.idsPriced (Snapshot.pricing snap) = [] ∧
  (λ o : option Outcome.t, Outcome.ok <$> o) <$> Snapshot.results snap
    = [Some true; Some false; Some false; Some true].
Proof. vm_compute. repeat split; reflexivity. Qed.

Example priced_snapshot :
  let snap := example_snapshot example_env example_schedule_in_order in
  onRequest example_env example_schedule_in_order = Some snap ∧
  Pricing.error (Snapshot.pricing snap) = None ∧
  Pricing.idsPriced (Snapshot.pricing snap) = ["ethereum"] ∧
  Snapshot.count snap = 4%nat ∧
  (λ o : option Outcome.t, Outcome.ok <$> o) <$> Snapshot.results snap
    = [Some true; Some false; Some false; Some true].
Proof. vm_compute. repeat split; reflexivity. Qed.

(* ===================================================================== *)
(** * The shape of an outcome                                             *)
(* ===================================================================== *)

(** Every outcome of a snapshot is of one of two shapes.  A success has a
    status in the range 200-299, [data] and [summary], and no [error]; a
    failure has a status outside that range, an [error], and neither
    [data] nor [summary].  In both, [url] is the status URL of the
    network. *)
Theorem outcome_is_success_or_failure env schedule snap i o :
  onRequest env schedule = Some snap →
  Snapshot.results snap !! i = Some (Some o) →
  Outcome.url o = status_url (Outcome.network o) ∧
  Outcome.ok o = status_2xx (Outcome.status o) ∧
  if Outcome.ok o
  then Outcome.error o = None ∧
       is_Some (Outcome.data o) ∧ is_Some (Outcome.summary o)
  else is_Some (Outcome.error o) ∧
       Outcome.data o = None ∧ Outcome.summary o = None.
Proof.
  intros Hsnap Ho.
  destruct (onRequest_results_inv env schedule snap i o Hsnap Ho)
    as (n & Hn & ->).
  unfold probe, settle.
  destruct (Env.relayer env _ _) as [e|res]; [by repeat split; eauto|].
  destruct (Response.ok res) eqn:Eok; simpl.
  - destruct (Response.json res) as [e|jsonRaw]; simpl;
      [by repeat split; eauto|].
    unfold rollup. destruct (count_zero _ _ _) as [e|zeroCount]; simpl;
      repeat split; eauto.
  - repeat split; eauto.
Qed.

Lemma outcome_is_success_or_failure_example :
  let o := probe example_env 2 (example_network "nowhere" 7 None) in
  Outcome.url o = status_url (Outcome.network o) ∧
  Outcome.ok o = status_2xx (Outcome.status o) ∧
  if Outcome.ok o
  then Outcome.error o = None ∧
       is_Some (Outcome.data o) ∧ is_Some (Outcome.summary o)
  else is_Some (Outcome.error o) ∧
       Outcome.data o = None ∧ Outcome.summary o = None.
Proof.
  apply (outcome_is_success_or_failure example_env example_schedule
           (example_snapshot example_env example_schedule) 2%nat);
    vm_compute; reflexivity.
Defined.

(** A response in the range 200-299 whose body does not parse is a
    failure of the probe: the [catch] clause stores the status 0, not the
    status of the response, and the message of the parser. *)
Theorem unparsable_body_is_a_failure env schedule snap i n res e :
  onRequest env schedule = Some snap →
  Env.ALL env !! i = Some n →
  Env.relayer env i (status_url n) = Resolved res →
  Response.ok res = true →
  Response.json res = inl e →
  ∃ o, Snapshot.results snap !! i = Some (Some o) ∧
    Outcome.ok o = false ∧
    Outcome.status o = 0%N ∧
    Outcome.status o ≠ Response.status res ∧
    Outcome.error o = Some (describe e) ∧
    Outcome.data o = None ∧ Outcome.summary o = None.
Proof.
  intros Hsnap Hn Er Eok Ej.
  pose proof (onRequest_results env schedule snap i n Hsnap Hn) as Ho.
  unfold probe, settle in Ho. simpl in Ho. rewrite Er, Eok, Ej in Ho.
  eexists. split; [exact Ho|]. simpl. repeat split.
  intros Hzero. unfold Response.ok in Eok. rewrite <- Hzero in Eok. done.
Qed.

Lemma unparsable_body_is_a_failure_example :
  ∃ o, Snapshot.results (example_snapshot example_env_garbled [0%nat; 0%nat])
         !! 0%nat = Some (Some o) ∧
    Outcome.ok o = false ∧
    Outcome.status o = 0%N ∧
    Outcome.status o ≠ Response.status example_garbled ∧
    Outcome.error o = Some (describe (JsError "SyntaxError" "Unexpected token '<'")) ∧
    Outcome.data o = None ∧ Outcome.summary o = None.
Proof.
  apply (unparsable_body_is_a_failure example_env_garbled [0%nat; 0%nat]
           (example_snapshot example_env_garbled [0%nat; 0%nat]) 0%nat
           (example_network "mainnet" 1 (Some ether)) example_garbled);
    vm_compute; reflexivity.
Defined.

(* ===================================================================== *)
(** * The rollup of a payload                                             *)
(* ===================================================================== *)






Example rollup_of_the_example :
  Outcome.summary (probe example_env 0 (example_network "mainnet" 1 (Some ether)))
  = Some {| Summary.senderCount := 2; Summary.zeroCount := 1;
            Summary.totalNative := 0.5; Summary.totalUsd := Some 1000%float;
            Summary.minNative := Some 0%float; Summary.minUsd := Some 0%float |}.
Proof. vm_compute. reflexivity. Qed.

Lemma plain_balance_at_most_zero env s :
  plain_balance s →
  at_most_zero env (get_prop s "etherBalance") =
  inr match get_prop s "etherBalance" with
      | Some (JNum x) => PrimFloat.leb x PrimFloat.zero
      | _ => true
      end.
Proof.
  unfold plain_balance.
  by destruct (get_prop s "etherBalance") as [[]|].
Qed.

Lemma count_zero_at_zero env (senders : list json) : ∀ acc,
  Forall plain_balance senders →
  count_zero env acc senders = inr (acc + length (at_zero senders))%nat.
Proof.
  induction senders as [|s l IH]; intros acc Hplain.
  - unfold at_zero. cbn. f_equal. lia.
  - cbn [count_zero]. apply Forall_cons in Hplain as [Hs Hl].
    rewrite (plain_balance_at_most_zero env s Hs), IH by done.
    f_equal. unfold at_zero.
    destruct (match get_prop s "etherBalance" with
              | Some (JNum x) => PrimFloat.leb x PrimFloat.zero
              | _ => true
              end) eqn:E.
    + rewrite filter_cons_True by done. simpl. lia.
    + rewrite filter_cons_False by (by rewrite E). lia.
Qed.

Lemma plain_balance_enrich price s :
  plain_balance s → plain_balance (enrich price s).
Proof. unfold plain_balance. by rewrite etherBalance_enrich. Qed.

Lemma at_zero_enriched price (senders : list json) :
  length (at_zero (enrich price <$> senders)) = length (at_zero senders).
Proof.
  unfold at_zero. induction senders as [|s l IH]; [done|].
  rewrite fmap_cons.
  destruct (match get_prop s "etherBalance" with
            | Some (JNum x) => PrimFloat.leb x PrimFloat.zero
            | _ => true
            end) eqn:E.
  - rewrite !filter_cons_True by (by rewrite ?etherBalance_enrich). simpl.
    by rewrite IH.
  - rewrite !filter_cons_False by (by rewrite ?etherBalance_enrich, E). done.
Qed.

(** In a successful outcome of which the [etherBalance] of every sender
    of the payload is a number, [null] or absent, [zeroCount] is the
    number of senders whose balance is at most zero, a sender without a
    balance being one of them. *)
Theorem zeroCount_counts_the_senders_at_zero
    env schedule snap i o n res jsonRaw :
  onRequest env schedule = Some snap →
  Snapshot.results snap !! i = Some (Some o) →
  Outcome.ok o = true →
  Env.ALL env !! i = Some n →
  Env.relayer env i (status_url n) = Resolved res →
  Response.json res = inr jsonRaw →
  Forall plain_balance (senders_of jsonRaw) →
  ∃ summary,
    Outcome.summary o = Some summary ∧
    Summary.zeroCount summary = length (at_zero (senders_of jsonRaw)) ∧
    (∀ s, s ∈ senders_of jsonRaw →
          (∀ x, get_prop s "etherBalance" ≠ Some (JNum x)) →
          s ∈ at_zero (senders_of jsonRaw)).
Proof.
  intros Hsnap Ho Hok Hn Er Ej Hplain.
  destruct (successful_rollup env schedule snap i o Hsnap Ho Hok)
    as (n' & res' & jsonRaw' & zeroCount & Hn' & Er' & _ & Ej' & Hz & ->).
  assert (n' = n) as -> by congruence.
  assert (res' = res) as -> by congruence.
  assert (jsonRaw' = jsonRaw) as -> by congruence.
  rewrite count_zero_at_zero in Hz
    by (apply Forall_fmap; eapply Forall_impl; [exact Hplain|];
        intros s; apply plain_balance_enrich).
  rewrite at_zero_enriched in Hz. injection Hz as Hz.
  eexists. split; [done|]. simpl. split; [done|].
  intros s Hs Hnone. unfold at_zero. apply list_elem_of_filter.
  split; [|done].
  destruct (get_prop s "etherBalance") as [[| |x| | |]|]; try done.
  by destruct (Hnone x).
Qed.

Lemma zeroCount_counts_the_senders_at_zero_example :
  let o := probe example_env 0 (example_network "mainnet" 1 (Some ether)) in
  ∃ summary,
    Outcome.summary o = Some summary ∧
    Summary.zeroCount summary = length (at_zero (senders_of example_payload)) ∧
    (∀ s, s ∈ senders_of example_payload →
          (∀ x, get_prop s "etherBalance" ≠ Some (JNum x)) →
          s ∈ at_zero (senders_of example_payload)).
Proof.
  apply (zeroCount_counts_the_senders_at_zero example_env example_schedule
           (example_snapshot example_env example_schedule) 0%nat _
           (example_network "mainnet" 1 (Some ether)) example_response);
    [vm_compute; reflexivity..|].
  vm_compute. repeat constructor.
Defined.

(* ===================================================================== *)
(** * The identifiers and the prices                                      *)
(* ===================================================================== *)



Lemma idsNeeded_snoc l x :
  Needed.idsNeeded (needed (l ++ [x])) =
  match resolve x with
  | Some id => Set_add id (Needed.idsNeeded (needed l))
  | None => Needed.idsNeeded (needed l)
  end.
Proof.
  rewrite needed_snoc. simpl.
  destruct (resolve x) as [id|] eqn:Er; [|done].
  by rewrite (resolve_truthy x id Er).
Qed.


Lemma idsNeeded_unlisted registry :
  (∀ n, n ∈ registry → resolve n = None) →
  Needed.idsNeeded (needed registry) = [].
Proof.
  induction registry as [|x l IH] using rev_ind; intros Hnone; [done|].
  rewrite idsNeeded_snoc, (Hnone x).
  - apply IH. intros n Hn. apply Hnone, elem_of_app. by left.
  - apply elem_of_app. right. left.
Qed.

(** When no network of the registry has a currency of the table, nor one
    whose symbol names a member of [Object.prototype], the price feed is
    not asked: whatever it would answer, the snapshot requests and prices
    no identifier, reports no pricing error, and no outcome has a
    price. *)
Theorem no_identifier_no_lookup env schedule snap :
  own_symbols (Env.ALL env) = true →
  (∀ n, n ∈ Env.ALL env → resolve n = None) →
  onRequest env schedule = Some snap →
  fetchUsdPrices env (idsNeeded env) (apiKey env) = inr ∅ ∧
  Pricing.idsRequested (Snapshot.pricing snap) = [] ∧
  Pricing.idsPriced (Snapshot.pricing snap) = [] ∧
  Pricing.error (Snapshot.pricing snap) = None ∧
  ∀ i o, Snapshot.results snap !! i = Some (Some o) →
         NativeToken.usdPrice (Outcome.nativeToken o) = None.
Proof.
  intros _ Hnone Hsnap.
  assert (Hids : idsNeeded env = []) by (by apply idsNeeded_unlisted).
  assert (Hfetch : fetchUsdPrices env (idsNeeded env) (apiKey env) = inr ∅)
    by (by rewrite Hids).
  assert (Hempty : pricesUsd env = ∅)
    by (unfold pricesUsd, priced; by rewrite Hfetch).
  destruct (onRequest_snapshot env schedule snap Hsnap) as (-> & _ & Hres & _).
  simpl. split; [done|]. split; [done|]. split; [|split].
  - by rewrite Hempty, map_to_list_empty.
  - unfold pricingError, priced. by rewrite Hfetch.
  - intros i o Ho. rewrite Hres, list_lookup_imap in Ho.
    destruct (networks env !! i) as [n|]; simplify_eq/=.
    unfold probe. rewrite settle_nativeToken.
    exact (unpriced_frame env i n Hempty).
Qed.

Lemma no_identifier_no_lookup_example :
  let env := example_env_unlisted in
  let snap := example_snapshot env [0%nat; 0%nat; 1%nat] in
  fetchUsdPrices env (idsNeeded env) (apiKey env) = inr ∅ ∧
  Pricing.idsRequested (Snapshot.pricing snap) = [] ∧
  Pricing.idsPriced (Snapshot.pricing snap) = [] ∧
  Pricing.error (Snapshot.pricing snap) = None ∧
  ∀ i o, Snapshot.results snap !! i = Some (Some o) →
         NativeToken.usdPrice (Outcome.nativeToken o) = None.
Proof.
  apply (no_identifier_no_lookup example_env_unlisted [0%nat; 0%nat; 1%nat]).
  - vm_compute. reflexivity.
  - intros n Hn. vm_compute in Hn.
    repeat (apply elem_of_cons in Hn as [->|Hn]; [vm_compute; reflexivity|]).
    by apply elem_of_nil in Hn.
  - vm_compute. reflexivity.
Defined.

Lemma elem_of_keys {A} (m : gmap string A) id :
  id ∈ (map_to_list m).*1 ↔ is_Some (m !! id).
Proof.
  rewrite list_elem_of_fmap. split.
  - intros ([id' v] & -> & Hin). apply elem_of_map_to_list in Hin. eauto.
  - intros [v Hv]. exists (id, v). split; [done|].
    by apply elem_of_map_to_list.
Qed.

(** No identifier of the table is the key [__proto__]. *)
Lemma resolve_not_proto n id : resolve n = Some id → id ≠ "__proto__".
Proof.
  unfold resolve. destruct (Network.nativeCurrency n) as [c|]; [|done].
  destruct (truthy _); [|done]. intros H.
  apply elem_of_list_to_map_2 in H.
  repeat (apply elem_of_cons in H as [H|H]; [by simplify_eq|]).
  by apply elem_of_nil in H.
Qed.

(** When the price feed answers in the 2xx range with a body that is not
    [null], no pricing error is reported, the identifiers priced are
    those of the body with a numeric [usd], the key [__proto__] apart,
    under which the price table stores nothing; and the price of an
    outcome is the quote of the body for the identifier of its network: a
    missing or malformed quote leaves that network without a price and
    fails nothing.  The registry is one of which the lookups meet own
    properties only. *)
Theorem quotes_reach_the_outcomes env res body schedule snap :
  NoDup (Network.name <$> Env.ALL env) →
  own_symbols (Env.ALL env) = true →
  own_names (Env.ALL env) = true →
  idsNeeded env ≠ [] →
  Env.coingecko env (price_request (idsNeeded env) (apiKey env)) = Resolved res →
  Response.ok res = true →
  Response.json res = inr body →
  body ≠ JNull →
  onRequest env schedule = Some snap →
  Pricing.error (Snapshot.pricing snap) = None ∧
  (∀ id, id ∈ Pricing.idsPriced (Snapshot.pricing snap) ↔
         id ≠ "__proto__" ∧ is_Some (own_props body !! id ≫= usd_quote)) ∧
  ∀ i o, Snapshot.results snap !! i = Some (Some o) →
    NativeToken.usdPrice (Outcome.nativeToken o) =
      resolve (Outcome.network o) ≫= λ id, own_props body !! id ≫= usd_quote.
Proof.
  intros Hnd _ _ Hids Er Eok Ej Hbody Hsnap.
  assert (Hfetch : fetchUsdPrices env (idsNeeded env) (apiKey env)
                   = inr (omap usd_quote (delete "__proto__" (own_props body)))).
  { unfold fetchUsdPrices. destruct (idsNeeded env); [done|].
    rewrite Er, Eok, Ej. simpl. by destruct body. }
  assert (Htable : pricesUsd env
                   = omap usd_quote (delete "__proto__" (own_props body)))
    by (unfold pricesUsd, priced; by rewrite Hfetch).
  destruct (onRequest_snapshot env schedule snap Hsnap) as (-> & _ & Hres & _).
  simpl. split; [|split].
  - unfold pricingError, priced. by rewrite Hfetch.
  - intros id. rewrite elem_of_keys, Htable, lookup_omap.
    destruct (decide (id = "__proto__")) as [->|Hne].
    + rewrite lookup_delete_eq. simpl. split; [by intros []|by intros []].
    + rewrite lookup_delete_ne by done. tauto.
  - intros i o Ho. rewrite Hres, list_lookup_imap in Ho.
    destruct (networks env !! i) as [n|] eqn:Hn; simplify_eq/=.
    unfold probe. rewrite settle_network, settle_nativeToken. simpl.
    pose proof (coinGeckoId_resolved _ i n Hnd Hn) as Hid.
    unfold coinGeckoIdByNetworkName, networks. rewrite Hid.
    destruct (resolve n) as [id|] eqn:Erz; [|done]. simpl.
    rewrite (resolve_truthy n id Erz), Htable, lookup_omap.
    by rewrite lookup_delete_ne by (symmetry; by eapply resolve_not_proto).
Qed.

Lemma quotes_reach_the_outcomes_example :
  let env := example_env in
  let snap := example_snapshot env example_schedule in
  Pricing.error (Snapshot.pricing snap) = None ∧
  (∀ id, id ∈ Pricing.idsPriced (Snapshot.pricing snap) ↔
         id ≠ "__proto__" ∧
         is_Some (own_props example_quotes !! id ≫= usd_quote)) ∧
  ∀ i o, Snapshot.results snap !! i = Some (Some o) →
    NativeToken.usdPrice (Outcome.nativeToken o) =
      resolve (Outcome.network o) ≫= λ id, own_props example_quotes !! id ≫= usd_quote.
Proof.
  apply (quotes_reach_the_outcomes example_env
           {| Response.status := 200; Response.json := inr example_quotes |}
           example_quotes example_schedule).
  - apply (bool_decide_unpack _). vm_compute. exact I.
  - vm_compute. reflexivity.
  - vm_compute. reflexivity.
  - vm_compute. discriminate.
  - vm_compute. reflexivity.
  - vm_compute. reflexivity.
  - vm_compute. reflexivity.
  - discriminate.
  - vm_compute. reflexivity.
Defined.

(** A quote under the key [__proto__] is not stored in the price table. *)
Example quote_under_proto :
  fetchUsdPrices example_env_proto ["ethereum"] None
  = inr {["ethereum" := 2000%float]}.
Proof. vm_compute. reflexivity. Qed.

(* ===================================================================== *)
(** * The pool at work                                                    *)
(* ===================================================================== *)

Section AtWork.

Context (env : Env.t).

Lemma loop_results q : Pool.results (loop env q).2 = Pool.results q.
Proof. unfold loop. by destruct (networks env !! Pool.i q). Qed.

Lemma requests_indices p :
  Inv env p → (Pool.requests p).*1 = seq 0 (Pool.i p).
Proof.
  intros HI. rewrite (inv_requests _ _ HI). apply list_eq. intros k.
  rewrite list_lookup_fmap, list_lookup_imap.
  pose proof (inv_bound _ _ HI) as Hb.
  destruct (decide (k < Pool.i p)) as [Hlt|Hge].
  - rewrite lookup_take_lt by done. rewrite lookup_seq_lt by done.
    destruct (networks env !! k) eqn:E; [done|].
    apply lookup_ge_None_1 in E. lia.
  - rewrite lookup_take_ge by lia. rewrite lookup_seq_ge by lia. done.
Qed.

Lemma length_omap_le {A B} (g : A → option B) (l : list A) :
  (length (omap g l) ≤ length l)%nat.
Proof.
  induction l as [|x l IH]; [done|]. cbn.
  destruct (g x); cbn; lia.
Qed.

(** A slot that is assigned keeps its outcome through a turn. *)
Lemma resume_keeps_slot p j p' k o :
  Inv env p → resume env j p = Some p' →
  slot (Pool.results p) k = Some o → slot (Pool.results p') k = Some o.
Proof.
  intros HI Hr Hk.
  destruct (resume_cases env p j p' HI Hr)
    as [(w & f & Hj & Hh & ->)|(f & res & _ & _ & _ & ->)]; [|done].
  simpl. rewrite loop_results. simpl.
  destruct (decide (k = Frame.idx f)) as [->|Hne].
  - rewrite slot_array_set_eq. f_equal.
    destruct (inv_results _ _ HI _ _ Hk) as (n & Hn & ->).
    assert (Hin : w ∈ Pool.workers p) by (by eapply list_elem_of_lookup_2).
    pose proof (inv_workers _ _ HI w Hin) as Hs.
    assert (Htaken : taken env p f)
      by (destruct w; simplify_eq/=; [done|by destruct Hs]).
    destruct Htaken as (_ & n' & Hn' & Hf).
    unfold probe. rewrite Hf. congruence.
  - by rewrite slot_array_set_ne.
Qed.

Lemma run_keeps_slot schedule : ∀ p k o,
  Inv env p →
  slot (Pool.results p) k = Some o →
  slot (Pool.results (run env schedule p)) k = Some o.
Proof.
  induction schedule as [|j rest IH]; intros p k o HI Hk; simpl; [done|].
  destruct (resume env j p) as [p'|] eqn:Hr; simpl; [|by apply IH].
  apply IH; [by eapply Inv_resume|by eapply resume_keeps_slot].
Qed.

Lemma spawn_remaining count : ∀ p,
  remaining env (spawn env count p) = remaining env p.
Proof.
  induction count as [|count IH]; intros p; [done|]. cbn [spawn].
  pose proof (loop_remaining env p) as Hl.
  pose proof (loop_workers env p) as Hw.
  destruct (loop env p) as [w p'] eqn:El. rewrite IH.
  unfold remaining, with_workers in *. simpl in *.
  rewrite Hw, fmap_app, sum_list_with_app. simpl. lia.
Qed.

Lemma run_remaining schedule : ∀ p,
  Inv env p → (remaining env (run env schedule p) ≤ remaining env p)%nat.
Proof.
  induction schedule as [|j rest IH]; intros p HI; simpl; [done|].
  destruct (resume env j p) as [p'|] eqn:Hr; simpl; [|by apply IH].
  pose proof (resume_remaining env j p p' HI Hr).
  etrans; [apply IH; by eapply Inv_resume|lia].
Qed.

Lemma completes_within p :
  Inv env p →
  ∃ schedule, (length schedule ≤ remaining env p)%nat ∧
              settled (run env schedule p) = true.
Proof.
  remember (remaining env p) as fuel eqn:Hf. revert p Hf.
  induction (lt_wf fuel) as [fuel _ IH]. intros p -> HI.
  destruct (settled p) eqn:Hs.
  - exists []. split; [simpl; lia|done].
  - destruct (pool_progress env p Hs) as (k & p' & Hr).
    pose proof (resume_remaining env k p p' HI Hr) as Hlt.
    destruct (IH (remaining env p') Hlt p' eq_refl)
      as (schedule & Hlen & Hdone); [by eapply Inv_resume|].
    exists (k :: schedule). simpl. rewrite Hr. split; [lia|done].
Qed.

End AtWork.

(** At any time, at most [concurrency] probes are in flight: the calls of
    [fetch] whose outcome is not stored yet are never more than twelve. *)
Theorem at_most_concurrency_probes_in_flight env schedule :
  (length (in_flight (run env schedule (start env))) ≤ concurrency)%nat.
Proof.
  set (p := run env schedule (start env)).
  assert (HI : Inv env p) by apply Inv_run, Inv_start.
  set (held := omap (λ w, Frame.idx <$> holds w) (Pool.workers p)).
  assert (Hheld : (length held ≤ concurrency)%nat).
  { etrans; [apply length_omap_le|]. unfold p.
    by rewrite run_workers_length, start_workers_length. }
  etrans; [|exact Hheld]. apply submseteq_length, NoDup_submseteq.
  - unfold in_flight. rewrite (requests_indices env p HI).
    apply NoDup_filter, NoDup_seq.
  - intros k Hk. unfold in_flight in Hk.
    rewrite (requests_indices env p HI) in Hk.
    apply list_elem_of_filter in Hk as [Hnot Hk].
    apply elem_of_seq in Hk.
    destruct (inv_covered _ _ HI k ltac:(lia)) as [Hw|(w & f & Hin & Hh & Hf)];
      [done|].
    apply list_elem_of_omap. exists w. split; [done|]. by rewrite Hh, <- Hf.
Qed.

(** However far the probes have got, they can all complete: every
    schedule extends, by at most two turns per network, to one under
    which [onRequest] responds. *)
Theorem onRequest_responds_within_two_turns_per_network env schedule :
  ∃ more snap,
    (length more ≤ 2 * length (Env.ALL env))%nat ∧
    onRequest env (schedule ++ more) = Some snap.
Proof.
  assert (HI : Inv env (run env schedule (start env)))
    by apply Inv_run, Inv_start.
  destruct (completes_within env _ HI) as (more & Hlen & Hdone).
  exists more. eexists. split.
  - etrans; [exact Hlen|]. etrans; [apply run_remaining, Inv_start|].
    unfold start. rewrite spawn_remaining. unfold remaining, networks.
    simpl. lia.
  - unfold onRequest. by rewrite run_app, Hdone.
Qed.

(** A slot of [results], once assigned, keeps its outcome whatever the
    workers do next: no probe overwrites the outcome of another, and no
    network is probed again. *)
Theorem outcome_is_stored_once env schedule more k o :
  slot (Pool.results (run env schedule (start env))) k = Some o →
  slot (Pool.results (run env (schedule ++ more) (start env))) k = Some o.
Proof.
  intros Hk. rewrite run_app. apply run_keeps_slot; [|done].
  apply Inv_run, Inv_start.
Qed.

(** After two turns of the example the second slot holds the failure of
    the second network, and it still does after four more. *)
Lemma outcome_is_stored_once_example :
  slot (Pool.results (run example_env ([3; 1] ++ [3; 2; 0; 0])%list
                        (start example_env))) 1
  = Some (probe example_env 1 (example_network "arbitrum" 42161 (Some ether))).
Proof.
  apply (outcome_is_stored_once example_env [3; 1]).
  vm_compute. reflexivity.
Defined.

(** Enrichment keeps the senders of the payload: as many, in the same
    order, each with every field it had (a sender that is not an object
    has none but its elements or characters) and with a [usdValue]
    besides. *)
Theorem enrichment_keeps_the_senders env schedule snap i o :
  onRequest env schedule = Some snap →
  Snapshot.results snap !! i = Some (Some o) →
  Outcome.ok o = true →
  ∃ n res jsonRaw,
    Env.ALL env !! i = Some n ∧
    Env.relayer env i (status_url n) = Resolved res ∧
    Response.json res = inr jsonRaw ∧
    Forall2 (λ sender enriched,
               is_Some (usdValue enriched) ∧
               (∀ key, key ≠ "usdValue" →
                       get_prop enriched key = own_props sender !! key) ∧
               (∀ key fields, sender = JObj fields → key ≠ "usdValue" →
                              get_prop enriched key = get_prop sender key))
            (senders_of jsonRaw) (enrichedSenders o).
Proof.
  intros Hsnap Ho Hok.
  destruct (successful_outcome env schedule snap i o Hsnap Ho Hok)
    as (n & res & jsonRaw & zeroCount & Hn & Er & _ & Ej & ->).
  exists n, res, jsonRaw. do 3 (split; [done|]).
  rewrite enrichedSenders_success.
  apply Forall2_fmap_r, Forall_Forall2_diag, Forall_forall.
  intros s _. split; [|split].
  - rewrite usdValue_enrich. eauto.
  - intros key Hkey. unfold enrich. simpl. by rewrite lookup_insert_ne.
  - intros key fields -> Hkey. unfold enrich. simpl.
    by rewrite lookup_insert_ne.
Qed.

Lemma enrichment_keeps_the_senders_example :
  let o := probe example_env 0 (example_network "mainnet" 1 (Some ether)) in
  ∃ n res jsonRaw,
    Env.ALL example_env !! 0%nat = Some n ∧
    Env.relayer example_env 0 (status_url n) = Resolved res ∧
    Response.json res = inr jsonRaw ∧
    Forall2 (λ sender enriched,
               is_Some (usdValue enriched) ∧
               (∀ key, key ≠ "usdValue" →
                       get_prop enriched key = own_props sender !! key) ∧
               (∀ key fields, sender = JObj fields → key ≠ "usdValue" →
                              get_prop enriched key = get_prop sender key))
            (senders_of jsonRaw) (enrichedSenders o).
Proof.
  apply (enrichment_keeps_the_senders example_env example_schedule
           (example_snapshot example_env example_schedule) 0%nat);
    vm_compute; reflexivity.
Defined.

(* ===================================================================== *)
(** * The overview of the dashboard                                       *)
(* ===================================================================== *)

Lemma tally_counts (results : list ApiResult.t) : ∀ acc,
  let final := foldl tally acc results in
  Tally.chainsUp final =
    (Tally.chainsUp acc + length (List.filter ApiResult.ok results))%nat ∧
  Tally.chainsDown final =
    (Tally.chainsDown acc +
     length (List.filter (λ r, negb (ApiResult.ok r)) results))%nat ∧
  Tally.lowEthChains final =
    (Tally.lowEthChains acc +
     length (List.filter (λ r, ApiResult.ok r && flagged_lowEth r) results))%nat.
Proof.
  induction results as [|r l IH]; intros acc; [simpl; lia|].
  cbn [foldl List.filter]. destruct (IH (tally acc r)) as (Hup & Hdown & Hlow).
  cbn zeta. rewrite Hup, Hdown, Hlow. unfold tally.
  destruct (ApiResult.ok r); [destruct (flagged_lowEth r)|]; simpl; lia.
Qed.

Lemma filter_split {A} (f : A → bool) (l : list A) :
  (length (List.filter f l) + length (List.filter (λ x, negb (f x)) l)
   = length l)%nat.
Proof.
  induction l as [|x l IH]; [done|]. simpl.
  destruct (f x); simpl; lia.
Qed.

Lemma filter_and_le {A} (f g : A → bool) (l : list A) :
  (length (List.filter (λ x, f x && g x) l) ≤ length (List.filter f l))%nat.
Proof.
  induction l as [|x l IH]; [done|]. simpl.
  destruct (f x), (g x); simpl; lia.
Qed.

(** The counters of the overview add up: every result is counted once,
    up or down, so that [chainsUp + chainsDown] is [total], the number of
    results; the chains flagged [lowEth] are among those up; and without
    a response every counter is 0. *)
Theorem overview_counts_add_up data :
  let results := results_of data in
  let view := summary data in
  Overview.total view = length results ∧
  (Overview.chainsUp view + Overview.chainsDown view)%nat = Overview.total view ∧
  Overview.chainsUp view = length (List.filter ApiResult.ok results) ∧
  Overview.chainsDown view =
    length (List.filter (λ r, negb (ApiResult.ok r)) results) ∧
  (Overview.lowEthChains view ≤ Overview.chainsUp view)%nat ∧
  (data = None →
   Overview.total view = 0%nat ∧ Overview.chainsUp view = 0%nat ∧
   Overview.chainsDown view = 0%nat ∧ Overview.totalUsd view = None).
Proof.
  intros results view. subst view. unfold summary. fold results. cbn zeta.
  cbn [Overview.total Overview.chainsUp Overview.chainsDown
       Overview.lowEthChains Overview.totalUsd].
  destruct (tally_counts results
              {| Tally.chainsUp := 0; Tally.chainsDown := 0;
                 Tally.zeroSenders := Num.zero; Tally.totalUsd := Num.zero;
                 Tally.hasUsd := false; Tally.lowEthChains := 0 |})
    as (Hup & Hdown & Hlow).
  cbn zeta in Hup, Hdown, Hlow. rewrite Hup, Hdown, Hlow. simpl.
  split; [done|]. split; [apply filter_split|]. do 2 (split; [done|]).
  split; [apply filter_and_le|].
  intros ->. by subst results.
Qed.

Lemma tally_usd (results : list ApiResult.t) : ∀ acc,
  let final := foldl tally acc results in
  Tally.totalUsd final = foldl Num.add (Tally.totalUsd acc) (counted_usd results) ∧
  Tally.hasUsd final =
    Tally.hasUsd acc || negb (bool_decide (counted_usd results = [])).
Proof.
  induction results as [|r l IH]; intros acc.
  - simpl. by rewrite orb_false_r.
  - cbn [foldl]. destruct (IH (tally acc r)) as (Husd & Hhas).
    cbn zeta. rewrite Husd, Hhas. unfold tally, counted_usd. cbn [omap list_omap].
    destruct (ApiResult.ok r); simpl; [|done].
    destruct (mainnet_usd r) as [usd|]; simpl; [|done].
    by rewrite orb_true_r.
Qed.

(** The total in USD of the overview is the sum, from the left and
    starting at 0, of the [totalUsd] of the results that are up, on a
    mainnet, and have a number there; testnets and networks that are down
    add nothing; and the total is [null], not 0, when no result counts. *)
Theorem overview_total_is_over_the_priced_mainnets data :
  let results := results_of data in
  Overview.totalUsd (summary data) =
    match counted_usd results with
    | [] => None
    | _ :: _ => Some (foldl Num.add Num.zero (counted_usd results))
    end ∧
  (Overview.totalUsd (summary data) = None ↔
   ∀ r, r ∈ results → ApiResult.ok r = true → mainnet_usd r = None) ∧
  (∀ r, r ∈ results →
        Network.type (ApiResult.network r) = Network.testnet →
        mainnet_usd r = None).
Proof.
  intros results. unfold summary. fold results. cbn zeta.
  cbn [Overview.totalUsd].
  destruct (tally_usd results
              {| Tally.chainsUp := 0; Tally.chainsDown := 0;
                 Tally.zeroSenders := Num.zero; Tally.totalUsd := Num.zero;
                 Tally.hasUsd := false; Tally.lowEthChains := 0 |})
    as (Husd & Hhas).
  cbn zeta in Husd, Hhas. rewrite Husd, Hhas. simpl.
  assert (Hnone : counted_usd results = [] ↔
            ∀ r, r ∈ results → ApiResult.ok r = true → mainnet_usd r = None).
  { unfold counted_usd. split.
    - intros Hnil r Hr Hok.
      destruct (mainnet_usd r) as [usd|] eqn:E; [|done].
      assert (Hin : usd ∈ omap (λ r, if ApiResult.ok r then mainnet_usd r else None)
                             results).
      { apply list_elem_of_omap. exists r. by rewrite Hok. }
      rewrite Hnil in Hin. by apply elem_of_nil in Hin.
    - intros Hall.
      destruct (omap _ results) as [|usd l] eqn:E; [done|].
      assert (Hin : usd ∈ omap (λ r, if ApiResult.ok r then mainnet_usd r else None)
                             results) by (rewrite E; left).
      apply list_elem_of_omap in Hin as (r & Hr & Hsome).
      destruct (ApiResult.ok r) eqn:Hok; [|done].
      by rewrite (Hall r Hr Hok) in Hsome. }
  split; [|split].
  - by destruct (counted_usd results).
  - rewrite <- Hnone. by destruct (counted_usd results).
  - intros r _ Htest. unfold mainnet_usd. rewrite Htest.
    by destruct (ApiResult.summary r ≫= ApiSummary.totalUsd).
Qed.

(* ===================================================================== *)
(** * The list the dashboard shows                                        *)
(* ===================================================================== *)

Lemma sublist_List_filter {A} (f : A → bool) (l : list A) :
  sublist (List.filter f l) l.
Proof.
  induction l as [|x l IH]; [done|]. simpl.
  destruct (f x); [by apply sublist_skip|by apply sublist_cons].
Qed.

(** The list shown is a sublist of the results: the same results in the
    same order, some left out.  With a query that is blank once trimmed
    and lowered and the filter [all], nothing is left out.  A result
    shown under a query has the query in its lowered name, title and
    chain identifier; one shown under [zero] has a positive [zeroCount];
    one shown under [lowEth] is flagged. *)
Theorem filtered_is_a_sublist trim toLowerCase data query filter :
  let shown := filtered trim toLowerCase data query filter in
  let q := toLowerCase (trim query) in
  sublist shown (results_of data) ∧
  (truthy q = false → filter = Filter.all → shown = results_of data) ∧
  (∀ r, r ∈ shown →
     (truthy q = true → includes (hay toLowerCase r) q = true) ∧
     (filter = Filter.zero → Num.ltb Num.zero (zeroCount_or_0 r) = true) ∧
     (filter = Filter.lowEth → flagged_lowEth r = true)).
Proof.
  intros shown q. subst shown. unfold filtered. fold q. cbn zeta.
  split; [|split].
  - destruct filter, (truthy q);
      repeat (etrans; [apply sublist_List_filter|]); done.
  - by intros -> ->.
  - intros r Hr. apply list_elem_of_In in Hr.
    destruct filter, (truthy q);
      repeat (apply filter_In in Hr as [Hr ?]); repeat split; done.
Qed.

(* ===================================================================== *)
(** * The endpoint before the prices and the endpoint with them           *)
(* ===================================================================== *)

Section Simulation.

Context (env : Env.t).

Lemma array_set_Forall2 {A B} (R : A → B → Prop) l0 l k v0 v :
  Forall2 (option_Forall2 R) l0 l → R v0 v →
  Forall2 (option_Forall2 R) (array_set l0 k v0) (array_set l k v).
Proof.
  intros Hl Hv. pose proof (Forall2_length _ _ _ Hl) as Hlen.
  unfold array_set. rewrite Hlen. case_decide.
  - apply Forall2_insert; [done|by constructor].
  - apply Forall2_app; [done|]. apply Forall2_app.
    + apply Forall2_replicate. constructor.
    + repeat constructor. done.
Qed.

Lemma same_loop p0 p :
  same_pool p0 p →
  same_worker (plain_loop env p0).1 (loop env p).1 ∧
  same_pool (plain_loop env p0).2 (loop env p).2.
Proof.
  intros (Hi & Hreq & Hws & Hres). unfold plain_loop, loop, networks.
  rewrite Hi. destruct (Env.ALL env !! Pool.i p) as [n|]; simpl.
  - split; [done|]. unfold same_pool. simpl. by rewrite ?Hi, ?Hreq.
  - done.
Qed.

Lemma same_store f0 f o0 o p0 p :
  same_pool p0 p → same_frame f0 f → agrees o0 o →
  same_pool (plain_store f0 o0 p0) (store f o p).
Proof.
  intros (Hi & Hreq & Hws & Hres) (Hidx & _ & _) Ho.
  unfold same_pool. simpl. rewrite Hidx.
  repeat split; try done. by apply array_set_Forall2.
Qed.

Lemma same_place k w0 w p0 p :
  same_pool p0 p → same_worker w0 w →
  same_pool (plain_with_workers (<[k := w0]> (PlainPool.workers p0)) p0)
            (with_workers (<[k := w]> (Pool.workers p)) p).
Proof.
  intros (Hi & Hreq & Hws & Hres) Hw. unfold same_pool. simpl.
  repeat split; try done. by apply Forall2_insert.
Qed.

Lemma same_append w0 w p0 p :
  same_pool p0 p → same_worker w0 w →
  same_pool (plain_with_workers (PlainPool.workers p0 ++ [w0]) p0)
            (with_workers (Pool.workers p ++ [w]) p).
Proof.
  intros (Hi & Hreq & Hws & Hres) Hw. unfold same_pool. simpl.
  repeat split; try done. apply Forall2_app; [done|]. by repeat constructor.
Qed.

Lemma agrees_caught f0 f e :
  same_frame f0 f → agrees (plain_caught_failure f0 e) (caught_failure f e).
Proof.
  intros (_ & Hn & Hurl). unfold agrees. simpl. rewrite Hn, Hurl.
  do 2 (split; [done|]). by left.
Qed.

Lemma agrees_http f0 f res :
  same_frame f0 f → agrees (plain_http_failure f0 res) (http_failure f res).
Proof.
  intros (_ & Hn & Hurl). unfold agrees. simpl. rewrite Hn, Hurl.
  do 2 (split; [done|]). by left.
Qed.

Lemma agrees_rollup f0 f res json :
  same_frame f0 f → agrees (plain_success f0 res json) (rollup env f res json).
Proof.
  intros (_ & Hn & Hurl). unfold agrees, rollup.
  destruct (count_zero _ _ _) as [e|zeroCount]; simpl; rewrite Hn, Hurl;
    (do 2 (split; [done|])).
  - right. repeat split. eauto.
  - left. repeat split. intros key Hkey. by rewrite lookup_insert_ne.
Qed.

Lemma same_turn w0 w p0 p :
  same_worker w0 w → same_pool p0 p →
  same_step (plain_turn env w0 p0) (turn env w p).
Proof.
  intros Hw Hp.
  destruct w0 as [f0|f0 res0|], w as [f|f res|]; try done; simpl in Hw.
  - pose proof Hw as (Hidx & _ & Hurl). simpl. rewrite Hidx, Hurl.
    destruct (Env.relayer env _ _) as [e|res].
    + pose proof (same_loop _ _ (same_store _ _ _ _ _ _ Hp Hw (agrees_caught _ _ e Hw))).
      unfold same_step. by destruct (plain_loop env _), (loop env _).
    + destruct (negb (Response.ok res)).
      * pose proof (same_loop _ _ (same_store _ _ _ _ _ _ Hp Hw (agrees_http _ _ res Hw))).
        unfold same_step. by destruct (plain_loop env _), (loop env _).
      * done.
  - destruct Hw as [Hf <-]. simpl.
    destruct (Response.json res0) as [e|json].
    + pose proof (same_loop _ _ (same_store _ _ _ _ _ _ Hp Hf (agrees_caught _ _ e Hf))).
      unfold same_step. by destruct (plain_loop env _), (loop env _).
    + pose proof (same_loop _ _
        (same_store _ _ _ _ _ _ Hp Hf (agrees_rollup _ _ res0 json Hf))).
      unfold same_step. by destruct (plain_loop env _), (loop env _).
Qed.

Lemma same_resume k p0 p :
  same_pool p0 p →
  option_Forall2 same_pool (plain_resume env k p0) (resume env k p).
Proof.
  intros Hp. unfold plain_resume, resume.
  pose proof Hp as (_ & _ & Hws & _).
  rewrite Forall2_lookup in Hws. specialize (Hws k).
  destruct Hws as [w0 w Hw|]; [|constructor].
  pose proof (same_turn w0 w p0 p Hw Hp) as Hstep. unfold same_step in Hstep.
  destruct (plain_turn env w0 p0) as [[w0' p0']|], (turn env w p) as [[w' p']|];
    try done; [|constructor].
  destruct Hstep as [Hw' Hp']. constructor. by apply same_place.
Qed.

Lemma same_spawn count : ∀ p0 p,
  same_pool p0 p → same_pool (plain_spawn env count p0) (spawn env count p).
Proof.
  induction count as [|count IH]; intros p0 p Hp; [done|]. simpl.
  pose proof (same_loop p0 p Hp) as [Hw Hp'].
  destruct (plain_loop env p0) as [w0 p0'], (loop env p) as [w p'].
  apply IH. by apply same_append.
Qed.

Lemma same_run schedule : ∀ p0 p,
  same_pool p0 p → same_pool (plain_run env schedule p0) (run env schedule p).
Proof.
  induction schedule as [|k rest IH]; intros p0 p Hp; [done|]. simpl.
  apply IH. destruct (same_resume k p0 p Hp); done.
Qed.

Lemma same_settled p0 p :
  same_pool p0 p → plain_settled p0 = settled p.
Proof.
  intros (_ & _ & Hws & _). unfold plain_settled, settled.
  induction Hws as [|w0 w l0 l Hw _ IH]; [done|]. simpl. rewrite IH.
  by destruct w0, w.
Qed.

Lemma same_start : same_pool (plain_start env) (start env).
Proof. apply same_spawn. by repeat split; constructor. Qed.

End Simulation.

(** Under the same schedule and with the same relayers, the endpoint with
    prices responds exactly when the earlier endpoint does, with as many
    outcomes, and the earlier endpoint calls [fetch] for the same URLs in
    the same order.  Slot by slot the two outcomes have the same network
    and URL, and either the same verdict, status and error, the new
    [data] having the fields of the earlier one, its [senders] apart; or
    the earlier outcome is a success and the new one the failure, with
    the status 0, that the [catch] clause stores when the rollup throws.
    A network that the earlier endpoint reports down is down in the
    endpoint with prices, with the same status and error. *)
Theorem verdicts_change_only_by_the_rollup env schedule :
  PlainPool.requests (plain_run env schedule (plain_start env))
    = Pool.requests (run env schedule (start env)) ∧
  match plain_onRequest env schedule, onRequest env schedule with
  | Some old, Some new =>
      PlainSnapshot.generatedAt old = Snapshot.generatedAt new ∧
      PlainSnapshot.count old = Snapshot.count new ∧
      Forall2 (option_Forall2 agrees)
              (PlainSnapshot.results old) (Snapshot.results new) ∧
      ∀ i o0 o,
        PlainSnapshot.results old !! i = Some (Some o0) →
        Snapshot.results new !! i = Some (Some o) →
        (Outcome.ok o = true → PlainOutcome.ok o0 = true) ∧
        (PlainOutcome.ok o0 = false →
           Outcome.ok o = false ∧
           Outcome.status o = PlainOutcome.status o0 ∧
           Outcome.error o = PlainOutcome.error o0)
  | None, None => True
  | _, _ => False
  end.
Proof.
  pose proof (same_run env schedule _ _ (same_start env)) as Hp.
  pose proof (same_settled _ _ Hp) as Hs.
  destruct Hp as (_ & Hreq & _ & Hres).
  split; [done|]. unfold plain_onRequest, onRequest. cbn zeta. rewrite Hs.
  destruct (settled _); [|done]. simpl.
  split; [done|]. split; [by eapply Forall2_length|]. split; [done|].
  intros i o0 o Ho0 Ho.
  rewrite Forall2_lookup in Hres. specialize (Hres i).
  rewrite Ho0, Ho in Hres. inversion Hres as [? ? Hopt|]; subst.
  inversion Hopt as [? ? Hag|]; subst.
  destruct Hag as (_ & _ & [(Hok & Hst & Herr & _)|(Hok & Hnew & _)]).
  - split; [congruence|]. intros Hdown. repeat split; congruence.
  - split; [done|]. intros Hdown. congruence.
Qed.

(** The payload of which a balance cannot be coerced: a success of the
    earlier endpoint, which stores the payload as it is, and a failure of
    the endpoint with prices. *)
Example verdict_changed_by_the_rollup :
  (λ o : option PlainOutcome.t,
     (λ o, (PlainOutcome.ok o, PlainOutcome.status o)) <$> o) <$>
    (from_option PlainSnapshot.results []
       (plain_onRequest example_env_uncoercible [0%nat; 0%nat]))
  = [Some (true, 200%N)] ∧
  (λ o : option Outcome.t,
     (λ o, (Outcome.ok o, Outcome.status o, Outcome.error o)) <$> o) <$>
    (from_option Snapshot.results []
       (onRequest example_env_uncoercible [0%nat; 0%nat]))
  = [Some (false, 0%N, Some "Cannot convert object to primitive value")].
Proof. split; vm_compute; reflexivity. Qed.

Example plain_snapshot_of_the_example :
  (λ o : option PlainOutcome.t, PlainOutcome.status <$> o) <$>
    (from_option PlainSnapshot.results []
       (plain_onRequest example_env example_schedule))
  = [Some 200%N; Some 503%N; Some 0%N; Some 200%N].
Proof. vm_compute. reflexivity. Qed.
